(** * Transformation paths between sets of points (manim/utils/paths.py)

    A shallow embedding of the path-function constructors of
    [manim.utils.paths] and the properties stated about them, followed by
    the parts of [manim.mobject.matrix] that compute on strings, lists and
    numbers.

    Numbers.  The source computes on numpy arrays of IEEE doubles.  Here a
    coordinate is an exact real number: rounding is abstracted away, [np.pi]
    is the real [PI], and the two places where double arithmetic leaves the
    reals are kept explicit,
    - [np.tan] at an odd multiple of [PI/2] is an infinite value, and a finite
      number divided by it is 0 (double evaluation gives a tangent of
      magnitude about 1.6e16 there, and a quotient that vanishes up to
      rounding);
    - a division by 0 gives no real number: the outcome is [NonFinite].
      The one divisor of paths.py is [np.tan(arc_angle / 2)], taken for
      [|arc_angle| >= 0.01].  In the reals it is 0 at the multiples of
      [2 * PI]; no double is such a multiple, the double tangent is small
      there but not 0 (about -1.2e-16 at [2 * np.pi]), and the code returns
      finite coordinates that no computation on reals gives.  [NonFinite]
      at those angles marks where the exact reading says nothing about the
      double computation, not an outcome of the code: what is stated about
      [path_along_arc] is stated for the other angles
      ([arc_angle_regular]).

    Arrays.  A [Point3D_Array] of shape (n, 3) is a list of n points.  Binary
    numpy operators follow numpy's broadcasting over the first dimension: the
    lengths agree, or one of them is 1, or the operator raises [ValueError]. *)

From Stdlib Require Import String Ascii.
From Stdlib Require Import Reals Lra List Arith Lia RNsatz.
Import ListNotations.

Open Scope R_scope.

(** * The program *)

(** ** Outcomes of a numpy computation *)

Inductive result (A : Type) : Type :=
| Ok (a : A)
| ValueError
| NonFinite.

Arguments Ok {A} a.
Arguments ValueError {A}.
Arguments NonFinite {A}.

Definition bind {A B : Type} (r : result A) (k : A -> result B) : result B :=
  match r with
  | Ok a => k a
  | ValueError => ValueError
  | NonFinite => NonFinite
  end.

Notation "x <- r ;; k" := (bind r (fun x => k))
  (at level 61, r at next level, right associativity).

Fixpoint mapM {A B : Type} (f : A -> result B) (l : list A) : result (list B) :=
  match l with
  | [] => Ok []
  | a :: l' => b <- f a ;; bs <- mapM f l' ;; Ok (b :: bs)
  end.

(** ** Points and 3x3 matrices *)

Record Point3D : Type := mkP { px : R; py : R; pz : R }.

Definition Point3D_Array : Type := list Point3D.

Definition ORIGIN : Point3D := mkP 0 0 0.

(** Modelled from the spec: the constant [OUT] of manim/constants.py, "the
    canonical out-of-plane unit vector", the default axis of every
    constructor. *)
Definition OUT : Point3D := mkP 0 0 1.

Definition vadd (p q : Point3D) : Point3D :=
  mkP (px p + px q) (py p + py q) (pz p + pz q).

Definition vsub (p q : Point3D) : Point3D :=
  mkP (px p - px q) (py p - py q) (pz p - pz q).

Definition vscale (a : R) (p : Point3D) : Point3D :=
  mkP (a * px p) (a * py p) (a * pz p).

Definition vdiv (p : Point3D) (a : R) : Point3D :=
  mkP (px p / a) (py p / a) (pz p / a).

Definition dot (p q : Point3D) : R :=
  px p * px q + py p * py q + pz p * pz q.

Definition cross (p q : Point3D) : Point3D :=
  mkP (py p * pz q - pz p * py q)
      (pz p * px q - px p * pz q)
      (px p * py q - py p * px q).

Definition norm (p : Point3D) : R := sqrt (dot p p).

(** A matrix is the triple of its rows. *)
Record Matrix3 : Type := mkM { row1 : Point3D; row2 : Point3D; row3 : Point3D }.

Definition identity3 : Matrix3 :=
  mkM (mkP 1 0 0) (mkP 0 1 0) (mkP 0 0 1).

Definition skew (u : Point3D) : Matrix3 :=
  mkM (mkP 0 (- pz u) (py u))
      (mkP (pz u) 0 (- px u))
      (mkP (- py u) (px u) 0).

Definition outer (u v : Point3D) : Matrix3 :=
  mkM (vscale (px u) v) (vscale (py u) v) (vscale (pz u) v).

Definition mscale (a : R) (m : Matrix3) : Matrix3 :=
  mkM (vscale a (row1 m)) (vscale a (row2 m)) (vscale a (row3 m)).

Definition madd (m n : Matrix3) : Matrix3 :=
  mkM (vadd (row1 m) (row1 n)) (vadd (row2 m) (row2 n)) (vadd (row3 m) (row3 n)).

(** [m.T] *)
Definition transpose (m : Matrix3) : Matrix3 :=
  mkM (mkP (px (row1 m)) (px (row2 m)) (px (row3 m)))
      (mkP (py (row1 m)) (py (row2 m)) (py (row3 m)))
      (mkP (pz (row1 m)) (pz (row2 m)) (pz (row3 m))).

(** A row vector times a matrix: one row of [np.dot(points, m)]. *)
Definition row_times (x : Point3D) (m : Matrix3) : Point3D :=
  vadd (vadd (vscale (px x) (row1 m)) (vscale (py x) (row2 m)))
       (vscale (pz x) (row3 m)).

(** ** The helpers of manim/utils/space_ops.py and manim/utils/bezier.py *)

(** Modelled from the spec: [normalize(v, fallback)] of
    manim/utils/space_ops.py, "returns v scaled to unit length; if v has
    (near-)zero magnitude, returns fallback instead".  The spec fixes no
    tolerance, so the magnitude is compared with 0 itself. *)
Definition normalize (vect fall_back : Point3D) : Point3D :=
  if Rlt_dec 0 (norm vect) then vdiv vect (norm vect) else fall_back.

(** Modelled from the spec: [rotation_matrix(angle, axis)] of
    manim/utils/space_ops.py, "the standard closed-form (identity·cos +
    skew(axis)·sin + outer(axis,axis)·(1−cos))". *)
Definition rotation_matrix (angle : R) (axis : Point3D) : Matrix3 :=
  madd (madd (mscale (cos angle) identity3) (mscale (sin angle) (skew axis)))
       (mscale (1 - cos angle) (outer axis axis)).

(** ** numpy array operations *)

Fixpoint zipWith {A B C : Type} (f : A -> B -> C) (a : list A) (b : list B)
  : list C :=
  match a, b with
  | x :: a', y :: b' => f x y :: zipWith f a' b'
  | _, _ => []
  end.

Fixpoint zipWith3 {A B C D : Type} (f : A -> B -> C -> D)
  (a : list A) (b : list B) (c : list C) : list D :=
  match a, b, c with
  | x :: a', y :: b', z :: c' => f x y z :: zipWith3 f a' b' c'
  | _, _, _ => []
  end.

(** An elementwise binary operator on arrays of shapes (n, 3) and (m, 3). *)
Definition broadcast (f : Point3D -> Point3D -> Point3D)
  (a b : Point3D_Array) : result Point3D_Array :=
  if Nat.eqb (length a) (length b) then Ok (zipWith f a b)
  else match a, b with
       | p :: nil, _ => Ok (map (f p) b)
       | _, q :: nil => Ok (map (fun p => f p q) a)
       | _, _ => ValueError
       end.

Definition np_add : Point3D_Array -> Point3D_Array -> result Point3D_Array :=
  broadcast vadd.

Definition np_sub : Point3D_Array -> Point3D_Array -> result Point3D_Array :=
  broadcast vsub.

(** [a * arr] for a scalar [a]. *)
Definition np_scale (a : R) (arr : Point3D_Array) : Point3D_Array :=
  map (vscale a) arr.

(** [arr / 2.0] *)
Definition np_halve (arr : Point3D_Array) : Point3D_Array :=
  map (fun p => vdiv p 2) arr.

(** [np.cross(u, arr)] for a single vector [u]. *)
Definition np_cross (u : Point3D) (arr : Point3D_Array) : Point3D_Array :=
  map (cross u) arr.

(** [np.dot(arr, m)] *)
Definition np_dot (arr : Point3D_Array) (m : Matrix3) : Point3D_Array :=
  map (fun x => row_times x m) arr.

(** The value of [np.tan]: a real number, or infinite at a pole. *)
Inductive xreal : Type :=
| Finite (r : R)
| Infinite.

Definition np_tan (x : R) : xreal :=
  if Req_dec_T (cos x) 0 then Infinite else Finite (sin x / cos x).

(** [x / t] for one coordinate.  The divisor is the tangent of the half
    angle; it is 0 only at angles that no double equals, where the exact
    quotient does not exist and [NonFinite] stands for it. *)
Definition div_scalar (x : R) (t : xreal) : result R :=
  match t with
  | Infinite => Ok 0
  | Finite r => if Req_dec_T r 0 then NonFinite else Ok (x / r)
  end.

Definition div_point (p : Point3D) (t : xreal) : result Point3D :=
  x <- div_scalar (px p) t ;;
  y <- div_scalar (py p) t ;;
  z <- div_scalar (pz p) t ;;
  Ok (mkP x y z).

(** [arr / t] *)
Definition np_div (arr : Point3D_Array) (t : xreal) : result Point3D_Array :=
  mapM (fun p => div_point p t) arr.

(** Modelled from the spec: [interpolate(start, end, alpha)] of
    manim/utils/bezier.py, "returns start + alpha · (end − start), applied
    independently to every coordinate of every point in the collection". *)
Definition interpolate (start_points end_points : Point3D_Array) (alpha : R)
  : result Point3D_Array :=
  d <- np_sub end_points start_points ;;
  np_add start_points (np_scale alpha d).

(** ** manim/utils/paths.py *)

Definition PathFuncType : Type :=
  Point3D_Array -> Point3D_Array -> R -> result Point3D_Array.

Definition STRAIGHT_PATH_THRESHOLD : R := 0.01.

Definition straight_path : PathFuncType := interpolate.

Definition path_along_circles (arc_angle : R) (circles_centers : Point3D_Array)
  (axis : Point3D) : PathFuncType :=
  let unit_axis := normalize axis OUT in
  fun start_points end_points alpha =>
    d <- np_sub end_points circles_centers ;;
    detransformed_end_points <-
      np_add circles_centers
        (np_dot d (transpose (rotation_matrix (- arc_angle) unit_axis))) ;;
    let rot_matrix := rotation_matrix (alpha * arc_angle) unit_axis in
    i <- interpolate start_points detransformed_end_points alpha ;;
    r <- np_sub i circles_centers ;;
    np_add circles_centers (np_dot r (transpose rot_matrix)).

(** The [centers] of [path_along_arc]'s closure, as they stand when the
    rotation is applied.  The in-place [centers += ...] adds two arrays of the
    shape of [vects]. *)
Definition arc_centers (arc_angle : R) (unit_axis : Point3D)
  (start_points end_points : Point3D_Array) : result Point3D_Array :=
  vects <- np_sub end_points start_points ;;
  centers <- np_add start_points (np_scale 0.5 vects) ;;
  if Req_dec_T arc_angle PI then Ok centers
  else
    off <- np_div (np_cross unit_axis (np_halve vects))
                  (np_tan (arc_angle / 2)) ;;
    np_add centers off.

Definition path_along_arc (arc_angle : R) (axis : Point3D) : PathFuncType :=
  if Rlt_dec (Rabs arc_angle) STRAIGHT_PATH_THRESHOLD then straight_path
  else
    let unit_axis := normalize axis OUT in
    fun start_points end_points alpha =>
      centers <- arc_centers arc_angle unit_axis start_points end_points ;;
      let rot_matrix := rotation_matrix (alpha * arc_angle) unit_axis in
      r <- np_sub start_points centers ;;
      np_add centers (np_dot r (transpose rot_matrix)).

Definition clockwise_path : PathFuncType := path_along_arc (- PI) OUT.

Definition counterclockwise_path : PathFuncType := path_along_arc PI OUT.

Definition spiral_path (angle : R) (axis : Point3D) : PathFuncType :=
  if Rlt_dec (Rabs angle) STRAIGHT_PATH_THRESHOLD then straight_path
  else
    let unit_axis := normalize axis OUT in
    fun start_points end_points alpha =>
      let rot_matrix := rotation_matrix ((alpha - 1) * angle) unit_axis in
      d <- np_sub end_points start_points ;;
      np_add start_points (np_scale alpha (np_dot d (transpose rot_matrix))).

(** * The law of one point

    What each closure computes for the pair ([s], [e]) at one index, read off
    the array code. *)

Definition rotate (angle : R) (u v : Point3D) : Point3D :=
  row_times v (transpose (rotation_matrix angle u)).

Definition lerp (alpha : R) (s e : Point3D) : Point3D :=
  vadd s (vscale alpha (vsub e s)).

Definition arc_center (arc_angle : R) (u s e : Point3D) : Point3D :=
  vadd (vadd s (vscale 0.5 (vsub e s)))
       (vscale (cos (arc_angle / 2) / sin (arc_angle / 2))
               (cross u (vdiv (vsub e s) 2))).

Definition arc_point (arc_angle : R) (u : Point3D) (alpha : R) (s e : Point3D)
  : Point3D :=
  vadd (arc_center arc_angle u s e)
       (rotate (alpha * arc_angle) u (vsub s (arc_center arc_angle u s e))).

Definition spiral_point (angle : R) (u : Point3D) (alpha : R) (s e : Point3D)
  : Point3D :=
  vadd s (vscale alpha (rotate ((alpha - 1) * angle) u (vsub e s))).

Definition circle_point (arc_angle : R) (u : Point3D) (alpha : R)
  (c s e : Point3D) : Point3D :=
  vadd c (rotate (alpha * arc_angle) u
            (vsub (lerp alpha s (vadd c (rotate (- arc_angle) u (vsub e c)))) c)).

(** The law of one point for [path_along_arc] and [spiral_path], with the
    small-angle substitution of [straight_path]. *)
Definition arc_law (arc_angle : R) (u : Point3D) (alpha : R)
  : Point3D -> Point3D -> Point3D :=
  if Rlt_dec (Rabs arc_angle) STRAIGHT_PATH_THRESHOLD then lerp alpha
  else arc_point arc_angle u alpha.

Definition spiral_law (angle : R) (u : Point3D) (alpha : R)
  : Point3D -> Point3D -> Point3D :=
  if Rlt_dec (Rabs angle) STRAIGHT_PATH_THRESHOLD then lerp alpha
  else spiral_point angle u alpha.

(** [(s + e) / 2] for one pair. *)
Definition chord_midpoint (p q : Point3D) : Point3D := vdiv (vadd p q) 2.

(** Where a quarter turn about [OUT] takes [p] on its way to [q]. *)
Definition quarter_turn_point (p q : Point3D) : Point3D :=
  mkP ((px p + px q) / 2 - (py p - py q) / 2)
      ((py p + py q) / 2 + (px p - px q) / 2)
      (pz p).

(** Where a quarter turn about [OUT] the other way round takes [p] on its way
    to [q]. *)
Definition quarter_turn_back_point (p q : Point3D) : Point3D :=
  mkP ((px p + px q) / 2 + (py p - py q) / 2)
      ((py p + py q) / 2 - (px p - px q) / 2)
      (pz p).

(** The mirror image of [x] across the chord from [p] to [q]: its
    reflection in the plane through [p] and [q] that is parallel to the axis
    [OUT], which a view along the axis shows as the line of the chord.
    Through a chord that is parallel to the axis, or a single point, there
    are many such planes; [x] is then left where it is, as each of them
    leaves the points of the line through the chord along the axis. *)
Definition reflect_across_chord (p q x : Point3D) : Point3D :=
  let n := cross (vsub q p) OUT in
  if Req_dec_T (dot n n) 0 then x
  else vsub x (vscale (2 * dot (vsub x p) n / dot n n) n).

(** numpy's view of a collection of one point as a collection of [n] points. *)
Definition stretch (a : Point3D_Array) (n : nat) : Point3D_Array :=
  match a with
  | p :: nil => repeat p n
  | _ => a
  end.

(** * The vocabulary of the statements *)

(** The arc angles at which the centre of the arc is a point of space: below
    the threshold no centre is computed, and elsewhere the tangent of the half
    angle must not be 0.  The angles left out are the multiples of [2 * PI]
    other than 0, and no double is one of them. *)
Definition arc_angle_regular (arc_angle : R) : Prop :=
  Rabs arc_angle < STRAIGHT_PATH_THRESHOLD \/ sin (arc_angle / 2) <> 0.

(** The centres handed to [path_along_circles]: one per point, or a single
    one for all points. *)
Definition centers_fit (circles_centers : Point3D_Array) (n : nat) : Prop :=
  length circles_centers = n \/ length circles_centers = 1%nat.

(** The chord from [p] to [q] is perpendicular to the axis [u]. *)
Definition chord_perpendicular (u p q : Point3D) : Prop :=
  dot u (vsub q p) = 0.

(** The point [x] lies on the line through the centre [c] along the axis [u]. *)
Definition on_axis (u c x : Point3D) : Prop :=
  cross u (vsub x c) = ORIGIN.

(** [f] is at [s] for [alpha = 0] and at [e] for [alpha = 1]. *)
Definition joins (f : PathFuncType) (s e : Point3D_Array) : Prop :=
  f s e 0 = Ok s /\ f s e 1 = Ok e.

(** [f] returns a collection as long as [s]. *)
Definition defined_on (f : PathFuncType) (s e : Point3D_Array) (alpha : R)
  : Prop :=
  exists out, f s e alpha = Ok out /\ length out = length s.

(** What the constructors give at [alpha = 0] and [alpha = 1]. *)
Definition endpoint_law (s e : Point3D_Array) : Prop :=
  joins straight_path s e
  /\ (forall arc_angle circles_centers axis,
         centers_fit circles_centers (length s) ->
         joins (path_along_circles arc_angle circles_centers axis) s e)
  /\ (forall angle axis, joins (spiral_path angle axis) s e)
  /\ (forall arc_angle axis,
         arc_angle_regular arc_angle ->
         path_along_arc arc_angle axis s e 0 = Ok s
         /\ (Forall2 (chord_perpendicular (normalize axis OUT)) s e ->
             path_along_arc arc_angle axis s e 1 = Ok e))
  /\ (clockwise_path s e 0 = Ok s
      /\ (Forall2 (fun p q => pz p = pz q) s e -> clockwise_path s e 1 = Ok e))
  /\ (counterclockwise_path s e 0 = Ok s
      /\ (Forall2 (fun p q => pz p = pz q) s e ->
          counterclockwise_path s e 1 = Ok e)).

(** What the constructors give when start and end are the same collection. *)
Definition stationary_law (p : Point3D_Array) (alpha : R) : Prop :=
  straight_path p p alpha = Ok p
  /\ (forall angle axis, spiral_path angle axis p p alpha = Ok p)
  /\ (forall arc_angle axis,
         arc_angle_regular arc_angle ->
         path_along_arc arc_angle axis p p alpha = Ok p)
  /\ clockwise_path p p alpha = Ok p
  /\ counterclockwise_path p p alpha = Ok p
  /\ (forall arc_angle circles_centers axis,
         Forall2 (on_axis (normalize axis OUT)) circles_centers p ->
         path_along_circles arc_angle circles_centers axis p p alpha = Ok p)
  /\ (forall arc_angle c axis,
         Forall (on_axis (normalize axis OUT) c) p ->
         path_along_circles arc_angle [c] axis p p alpha = Ok p).


(** What [f] does with collections of different lengths: it raises
    [ValueError] when neither has length 1, and it computes as if a collection
    of one point were that point repeated to the length of the other. *)
Definition mismatch_outcome (f : PathFuncType) (s e : Point3D_Array)
  (alpha : R) : Prop :=
  (length s <> 1%nat -> length e <> 1%nat -> f s e alpha = ValueError)
  /\ f s e alpha = f (stretch s (length e)) (stretch e (length s)) alpha.

Definition mismatch_law (s e : Point3D_Array) (alpha : R) : Prop :=
  mismatch_outcome straight_path s e alpha
  /\ (forall arc_angle axis,
         mismatch_outcome (path_along_arc arc_angle axis) s e alpha)
  /\ mismatch_outcome clockwise_path s e alpha
  /\ mismatch_outcome counterclockwise_path s e alpha
  /\ (forall angle axis, mismatch_outcome (spiral_path angle axis) s e alpha)
  /\ (forall arc_angle circles_centers axis,
         mismatch_outcome
           (path_along_circles arc_angle circles_centers axis) s e alpha).

(** * Further vocabulary for the path functions *)

(** [arr + t] for a single vector [t]: every point moved by [t]. *)
Definition shift (t : Point3D) (arr : Point3D_Array) : Point3D_Array :=
  map (fun p => vadd p t) arr.

Definition result_map {A B : Type} (f : A -> B) (r : result A) : result B :=
  match r with
  | Ok a => Ok (f a)
  | ValueError => ValueError
  | NonFinite => NonFinite
  end.

Definition vneg (p : Point3D) : Point3D := mkP (- px p) (- py p) (- pz p).

(** What laying two pairs of collections end to end does to the results. *)
Definition append_law (s1 e1 s2 e2 : Point3D_Array) (alpha : R) : Prop :=
  (forall o1 o2,
      straight_path s1 e1 alpha = Ok o1 -> straight_path s2 e2 alpha = Ok o2 ->
      straight_path (s1 ++ s2) (e1 ++ e2) alpha = Ok (o1 ++ o2))
  /\ (forall arc_angle axis o1 o2,
         path_along_arc arc_angle axis s1 e1 alpha = Ok o1 ->
         path_along_arc arc_angle axis s2 e2 alpha = Ok o2 ->
         path_along_arc arc_angle axis (s1 ++ s2) (e1 ++ e2) alpha
         = Ok (o1 ++ o2))
  /\ (forall angle axis o1 o2,
         spiral_path angle axis s1 e1 alpha = Ok o1 ->
         spiral_path angle axis s2 e2 alpha = Ok o2 ->
         spiral_path angle axis (s1 ++ s2) (e1 ++ e2) alpha = Ok (o1 ++ o2))
  /\ (forall arc_angle c axis o1 o2,
         path_along_circles arc_angle [c] axis s1 e1 alpha = Ok o1 ->
         path_along_circles arc_angle [c] axis s2 e2 alpha = Ok o2 ->
         path_along_circles arc_angle [c] axis (s1 ++ s2) (e1 ++ e2) alpha
         = Ok (o1 ++ o2))
  /\ (forall arc_angle cs1 cs2 axis o1 o2,
         length cs1 = length s1 -> length cs2 = length s2 ->
         path_along_circles arc_angle cs1 axis s1 e1 alpha = Ok o1 ->
         path_along_circles arc_angle cs2 axis s2 e2 alpha = Ok o2 ->
         path_along_circles arc_angle (cs1 ++ cs2) axis (s1 ++ s2) (e1 ++ e2)
           alpha = Ok (o1 ++ o2)).

(** * manim/mobject/matrix.py *)

(** ** matrix_to_tex_string *)

(** The array [np.array(matrix).astype("str")]: one-dimensional,
    two-dimensional with [n_cols] entries in every row, or of another number
    of dimensions. *)
Inductive str_array : Type :=
| Array1 (items : list String.string)
| Array2 (n_cols : nat) (rows : list (list String.string))
| ArrayOther.

(** [s * n] for a string [s]. *)
Fixpoint str_times (s : String.string) (n : nat) : String.string :=
  match n with
  | O => String.EmptyString
  | S n' => String.append s (str_times s n')
  end.

Definition matrix_to_tex_string (matrix : str_array) : result String.string :=
  let matrix :=
    match matrix with
    | Array1 items => Array2 1 (map (fun item => [item]) items)
    | _ => matrix
    end in
  match matrix with
  | Array2 n_cols matrix_rows =>
      let prefix :=
        String.append "\left[ \begin{array}{"
          (String.append (str_times "c" n_cols) "}") in
      let suffix := "\end{array} \right]"%string in
      let rows := map (String.concat " & ") matrix_rows in
      Ok (String.append prefix (String.append (String.concat " \\ " rows) suffix))
  | _ => ValueError
  end.

(** How often the character [c] occurs in [s]. *)
Fixpoint count_char (c : Ascii.ascii) (s : String.string) : nat :=
  match s with
  | String.EmptyString => O
  | String.String a s' =>
      ((if Ascii.eqb a c then 1 else 0) + count_char c s')%nat
  end.

(** ** The class Matrix

    The mobjects of a matrix are values of any type [M]; equal values are
    the same mobject.

    [VGroup] is a class of manim/mobject/types/vectorized_mobject.py.  A
    group holds a mobject at most once: a mobject handed twice to the
    constructor is a member once.  The methods below are written over the
    function [VGroup] from the mobjects handed to the constructor to the
    members of the new group, and what is stated about members is stated
    for a function that [keeps_distinct] describes.  The groups that a method
    creates are new mobjects, each different from the others, so that a
    group of such groups is the list of them. *)

(** A value, or Python's [IndexError]. *)
Inductive indexed (A : Type) : Type :=
| Value (a : A)
| IndexError.

Arguments Value {A} a.
Arguments IndexError {A}.

(** [l[i]] for an index that is not negative. *)
Definition getitem {A : Type} (l : list A) (i : nat) : indexed A :=
  match nth_error l i with
  | Some a => Value a
  | None => IndexError
  end.

(** The members a generator expression yields, up to the first error. *)
Fixpoint gather {A B : Type} (f : A -> indexed B) (l : list A)
  : indexed (list B) :=
  match l with
  | [] => Value []
  | a :: l' =>
      match f a with
      | IndexError => IndexError
      | Value b =>
          match gather f l' with
          | IndexError => IndexError
          | Value bs => Value (b :: bs)
          end
      end
  end.

Definition indexed_map {A B : Type} (f : A -> B) (r : indexed A) : indexed B :=
  match r with
  | Value a => Value (f a)
  | IndexError => IndexError
  end.

(** Mobjects that are pairwise different are the members of the group
    made of them, in the order given. *)
Definition keeps_distinct {M : Type} (VGroup : list M -> list M) : Prop :=
  forall members, NoDup members -> VGroup members = members.

Definition get_columns {M : Type} (VGroup : list M -> list M)
  (mob_matrix : list (list M)) : indexed (list (list M)) :=
  match getitem mob_matrix 0 with
  | IndexError => IndexError
  | Value first =>
      gather
        (fun i =>
           indexed_map VGroup (gather (fun row => getitem row i) mob_matrix))
        (seq 0 (length first))
  end.

(** [self.elements], which [get_entries] returns:
    [VGroup( *it.chain( *mob_matrix))]. *)
Definition get_entries {M : Type} (VGroup : list M -> list M)
  (mob_matrix : list (list M)) : list M :=
  VGroup (concat mob_matrix).

(** The point [_organize_mob_matrix] moves the entry of row [i] and column
    [j] to.  [DOWN] and [RIGHT] are constants of manim/constants.py. *)
Definition entry_target (v_buff h_buff : R) (DOWN RIGHT : Point3D)
  (i j : nat) : Point3D :=
  vadd (vscale (INR i * v_buff) DOWN) (vscale (INR j * h_buff) RIGHT).

(** The columns of a matrix whose rows are at least as long as the first. *)
Definition columns_of {M : Type} (d : M) (mob_matrix : list (list M))
  : list (list M) :=
  map (fun j => map (fun row => nth j row d) mob_matrix)
    (seq 0 (length (hd [] mob_matrix))).

(** * Lists and broadcasting *)

Lemma zipWith_length {A B C : Type} (f : A -> B -> C) (a : list A) (b : list B) :
  length a = length b -> length (zipWith f a b) = length a.
Proof.
  revert b; induction a as [|x a IH]; intros [|y b] H; simpl in *;
    try discriminate; auto.
Qed.

Lemma zipWith_length_min {A B C : Type} (f : A -> B -> C)
  (a : list A) (b : list B) :
  length (zipWith f a b) = Nat.min (length a) (length b).
Proof.
  revert b; induction a as [|x a IH]; intros [|y b]; simpl; auto.
Qed.

Ltac lengths :=
  repeat (rewrite length_map || rewrite zipWith_length_min
          || rewrite repeat_length);
  simpl in *; lia.

Lemma zipWith_fix_l {A B : Type} (f : A -> B -> A) (a : list A) (b : list B) :
  Forall2 (fun x y => f x y = x) a b -> zipWith f a b = a.
Proof. induction 1; simpl; congruence. Qed.

Lemma zipWith_fix_r {A B : Type} (f : A -> B -> B) (a : list A) (b : list B) :
  Forall2 (fun x y => f x y = y) a b -> zipWith f a b = b.
Proof. induction 1; simpl; congruence. Qed.

Lemma zipWith_ext {A B C : Type} (f g : A -> B -> C) (a : list A) (b : list B) :
  Forall2 (fun x y => f x y = g x y) a b -> zipWith f a b = zipWith g a b.
Proof. induction 1; simpl; congruence. Qed.

Lemma zipWith_diag {A : Type} (f : A -> A -> A) (l : list A) :
  Forall (fun x => f x x = x) l -> zipWith f l l = l.
Proof. induction 1; simpl; congruence. Qed.

Lemma zipWith3_length {A B C D : Type} (f : A -> B -> C -> D)
  (a : list A) (b : list B) (c : list C) :
  length a = length b -> length b = length c ->
  length (zipWith3 f a b c) = length b.
Proof.
  revert b c; induction a as [|x a IH]; intros [|y b] [|z c] H1 H2;
    simpl in *; try discriminate; auto.
Qed.

Lemma zipWith3_fix_2 {A B C : Type} (f : A -> B -> C -> B)
  (a : list A) (b : list B) (c : list C) :
  length a = length b -> length b = length c ->
  (forall x y z, f x y z = y) -> zipWith3 f a b c = b.
Proof.
  intros H1 H2 Hf. revert a c H1 H2; induction b as [|y b IH];
    intros [|x a] [|z c] H1 H2; simpl in *; try discriminate; auto.
  rewrite Hf. f_equal. apply IH; lia.
Qed.

Lemma zipWith3_fix_3 {A B C : Type} (f : A -> B -> C -> C)
  (a : list A) (b : list B) (c : list C) :
  length a = length b -> length b = length c ->
  (forall x y z, f x y z = z) -> zipWith3 f a b c = c.
Proof.
  intros H1 H2 Hf. revert a c H1 H2; induction b as [|y b IH];
    intros [|x a] [|z c] H1 H2; simpl in *; try discriminate; auto.
  rewrite Hf. f_equal. apply IH; lia.
Qed.

Lemma zipWith3_diag {A B : Type} (f : A -> B -> B -> B)
  (a : list A) (l : list B) :
  Forall2 (fun c x => f c x x = x) a l -> zipWith3 f a l l = l.
Proof. induction 1; simpl; congruence. Qed.

Lemma zipWith_repeat_l {A B C : Type} (f : A -> B -> C) (x : A) (n : nat)
  (b : list B) :
  length b = n -> zipWith f (repeat x n) b = map (f x) b.
Proof.
  intros <-. induction b as [|y b IH]; simpl; congruence.
Qed.

Lemma zipWith_repeat_r {A B C : Type} (f : A -> B -> C) (a : list A) (y : B)
  (n : nat) :
  length a = n -> zipWith f a (repeat y n) = map (fun x => f x y) a.
Proof.
  intros <-. induction a as [|x a IH]; simpl; congruence.
Qed.

Lemma Forall_all {A : Type} (P : A -> Prop) (l : list A) :
  (forall x, P x) -> Forall P l.
Proof. intros H; induction l; constructor; auto. Qed.

Lemma Forall2_same_length {A B : Type} (P : A -> B -> Prop)
  (a : list A) (b : list B) :
  length a = length b -> (forall x y, P x y) -> Forall2 P a b.
Proof.
  revert b; induction a as [|x a IH]; intros [|y b] H HP; simpl in *;
    try discriminate; constructor; auto.
Qed.

Lemma Forall2_weaken {A B : Type} (P Q : A -> B -> Prop)
  (a : list A) (b : list B) :
  (forall x y, P x y -> Q x y) -> Forall2 P a b -> Forall2 Q a b.
Proof. intros HPQ; induction 1; constructor; auto. Qed.

Lemma nth_zipWith {A B C : Type} (f : A -> B -> C) (a : list A) (b : list B)
  (i : nat) (da : A) (db : B) (dc : C) :
  length a = length b -> (i < length a)%nat ->
  nth i (zipWith f a b) dc = f (nth i a da) (nth i b db).
Proof.
  revert b i; induction a as [|x a IH]; intros [|y b] i H Hi; simpl in *;
    try discriminate; try lia.
  destruct i; auto. apply IH; lia.
Qed.

Lemma mapM_length {A B : Type} (f : A -> result B) (l : list A) (l' : list B) :
  mapM f l = Ok l' -> length l' = length l.
Proof.
  revert l'; induction l as [|a l IH]; intros l' H; simpl in *.
  - injection H as <-. reflexivity.
  - destruct (f a) as [b| |]; simpl in H; try discriminate.
    destruct (mapM f l) as [bs| |]; simpl in H; try discriminate.
    injection H as <-. simpl. f_equal. apply IH. reflexivity.
Qed.

Lemma broadcast_same (f : Point3D -> Point3D -> Point3D) (a b : Point3D_Array) :
  length a = length b -> broadcast f a b = Ok (zipWith f a b).
Proof.
  intros H; unfold broadcast. rewrite H, Nat.eqb_refl. reflexivity.
Qed.

Lemma broadcast_single_l (f : Point3D -> Point3D -> Point3D) (c : Point3D)
  (b : Point3D_Array) :
  broadcast f [c] b = Ok (map (f c) b).
Proof.
  unfold broadcast.
  destruct (Nat.eqb (length [c]) (length b)) eqn:E; auto.
  apply Nat.eqb_eq in E. destruct b as [|y [|z b]]; simpl in *;
    try discriminate; reflexivity.
Qed.

Lemma broadcast_single_r (f : Point3D -> Point3D -> Point3D) (c : Point3D)
  (a : Point3D_Array) :
  broadcast f a [c] = Ok (map (fun p => f p c) a).
Proof.
  unfold broadcast.
  destruct (Nat.eqb (length a) (length [c])) eqn:E.
  - apply Nat.eqb_eq in E. destruct a as [|y [|z a]]; simpl in *;
      try discriminate; reflexivity.
  - destruct a as [|y [|z a]]; reflexivity.
Qed.

Lemma broadcast_mismatch (f : Point3D -> Point3D -> Point3D)
  (a b : Point3D_Array) :
  length a <> length b -> length a <> 1%nat -> length b <> 1%nat ->
  broadcast f a b = ValueError.
Proof.
  intros Hab Ha Hb. unfold broadcast.
  apply Nat.eqb_neq in Hab. rewrite Hab.
  destruct a as [|x [|x' a]]; destruct b as [|y [|y' b]]; simpl in *;
    try reflexivity; congruence.
Qed.

(** The length of a broadcast result, when there is one. *)
Lemma broadcast_length (f : Point3D -> Point3D -> Point3D)
  (a b l : Point3D_Array) :
  broadcast f a b = Ok l ->
  (length a = length b /\ length l = length b)
  \/ (length a = 1%nat /\ length l = length b)
  \/ (length b = 1%nat /\ length l = length a).
Proof.
  unfold broadcast.
  destruct (Nat.eqb (length a) (length b)) eqn:E.
  - apply Nat.eqb_eq in E. intros H; injection H as <-. left.
    rewrite zipWith_length; auto.
  - destruct a as [|x [|x' a]]; destruct b as [|y [|y' b]]; simpl;
      intros H; try discriminate; injection H as <-; simpl;
      rewrite ?length_map; simpl; auto.
Qed.

Lemma broadcast_finite (f : Point3D -> Point3D -> Point3D)
  (a b : Point3D_Array) :
  broadcast f a b <> NonFinite.
Proof.
  unfold broadcast. destruct (Nat.eqb _ _); [discriminate|].
  destruct a as [|x [|x' a]]; destruct b as [|y [|y' b]]; discriminate.
Qed.

Lemma broadcast_repeat_l (f : Point3D -> Point3D -> Point3D) (p : Point3D)
  (n : nat) (b : Point3D_Array) :
  length b = n -> broadcast f (repeat p n) b = broadcast f [p] b.
Proof.
  intros H. rewrite broadcast_single_l, broadcast_same by lengths.
  now rewrite zipWith_repeat_l.
Qed.

Lemma broadcast_repeat_r (f : Point3D -> Point3D -> Point3D)
  (a : Point3D_Array) (q : Point3D) (n : nat) :
  length a = n -> broadcast f a (repeat q n) = broadcast f a [q].
Proof.
  intros H. rewrite broadcast_single_r, broadcast_same by lengths.
  now rewrite zipWith_repeat_r.
Qed.

(** * Angles *)

Lemma PI_gt_3 : 3 < PI.
Proof. pose proof PI2_3_2. lra. Qed.

Lemma Rabs_PI : Rabs PI = PI.
Proof. apply Rabs_pos_eq. pose proof PI_gt_3. lra. Qed.

Lemma Rabs_neg_PI : Rabs (- PI) = PI.
Proof. rewrite Rabs_Ropp. apply Rabs_PI. Qed.

Lemma sin_neg_PI2 : sin (- PI / 2) = -1.
Proof.
  replace (- PI / 2) with (- (PI / 2)) by field.
  rewrite sin_neg, sin_PI2. reflexivity.
Qed.

Lemma cos_neg_PI2 : cos (- PI / 2) = 0.
Proof.
  replace (- PI / 2) with (- (PI / 2)) by field.
  rewrite cos_neg, cos_PI2. reflexivity.
Qed.

Lemma half_PI : 0.5 * PI = PI / 2.
Proof. lra. Qed.

Lemma neg_half_PI : 0.5 * - PI = - (PI / 2).
Proof. lra. Qed.

Lemma not_small_PI : ~ Rabs PI < STRAIGHT_PATH_THRESHOLD.
Proof.
  rewrite Rabs_PI. unfold STRAIGHT_PATH_THRESHOLD. pose proof PI_gt_3. lra.
Qed.

Lemma not_small_neg_PI : ~ Rabs (- PI) < STRAIGHT_PATH_THRESHOLD.
Proof.
  rewrite Rabs_neg_PI. unfold STRAIGHT_PATH_THRESHOLD. pose proof PI_gt_3. lra.
Qed.

Lemma regular_PI : arc_angle_regular PI.
Proof. right. rewrite sin_PI2. lra. Qed.

Lemma regular_neg_PI : arc_angle_regular (- PI).
Proof. right. rewrite sin_neg_PI2. lra. Qed.

Lemma sum_squares_zero (a b c : R) :
  a * a + b * b + c * c = 0 -> a = 0 /\ b = 0 /\ c = 0.
Proof.
  intros H.
  pose proof (Rle_0_sqr a) as Ha. pose proof (Rle_0_sqr b) as Hb.
  pose proof (Rle_0_sqr c) as Hc. unfold Rsqr in *.
  repeat split; apply Rsqr_0_uniq; unfold Rsqr; lra.
Qed.

(** * Vectors, rotations and the unit axis *)

Ltac by_coordinates :=
  repeat match goal with p : Point3D |- _ => destruct p end;
  cbv [row_times transpose rotation_matrix madd mscale outer skew identity3
       vadd vsub vscale vdiv cross dot OUT ORIGIN px py pz row1 row2 row3]
    in *.

Lemma point_eq (a b c a' b' c' : R) :
  a = a' -> b = b' -> c = c' -> mkP a b c = mkP a' b' c'.
Proof. congruence. Qed.

(** [np.dot(v, rotation_matrix(a, u).T)] is Rodrigues' formula applied to [v]. *)
Lemma rotate_formula (a : R) (u v : Point3D) :
  row_times v (transpose (rotation_matrix a u))
  = vadd (vadd (vscale (cos a) v) (vscale (sin a) (cross u v)))
         (vscale ((1 - cos a) * dot u v) u).
Proof. by_coordinates. apply point_eq; ring. Qed.

Lemma rotate_zero (u v : Point3D) :
  row_times v (transpose (rotation_matrix 0 u)) = v.
Proof.
  rewrite rotate_formula, cos_0, sin_0. by_coordinates. apply point_eq; ring.
Qed.

Lemma rotate_0 (u v : Point3D) : rotate 0 u v = v.
Proof. apply rotate_zero. Qed.

Lemma norm_OUT : norm OUT = 1.
Proof.
  unfold norm, dot, OUT; simpl.
  replace (0 * 0 + 0 * 0 + 1 * 1) with 1 by ring. apply sqrt_1.
Qed.

Lemma normalize_OUT : normalize OUT OUT = OUT.
Proof.
  unfold normalize. rewrite norm_OUT.
  destruct (Rlt_dec 0 1) as [_|H]; [|exfalso; lra].
  unfold vdiv, OUT; simpl. apply point_eq; field.
Qed.

Lemma norm_ORIGIN : norm ORIGIN = 0.
Proof.
  unfold norm, dot, ORIGIN; simpl.
  replace (0 * 0 + 0 * 0 + 0 * 0) with 0 by ring. apply sqrt_0.
Qed.

Lemma dot_self_nonneg (v : Point3D) : 0 <= dot v v.
Proof. destruct v as [x y z]; unfold dot; simpl. nra. Qed.

(** The axis every closure rotates about has length 1. *)
Lemma normalize_unit (axis : Point3D) :
  dot (normalize axis OUT) (normalize axis OUT) = 1.
Proof.
  unfold normalize. destruct (Rlt_dec 0 (norm axis)) as [H|H].
  - assert (Hn : norm axis * norm axis = dot axis axis)
      by (unfold norm; apply sqrt_sqrt, dot_self_nonneg).
    assert (Hz : norm axis <> 0) by lra.
    revert Hn Hz. generalize (norm axis) as n. intros n Hn Hz.
    destruct axis as [x y z]; unfold dot, vdiv in *; simpl in *.
    field_simplify_eq; auto.
    replace (n ^ 2) with (n * n) by ring. rewrite Hn. ring.
  - unfold dot, OUT; simpl; ring.
Qed.

Lemma lerp_0 (s e : Point3D) : lerp 0 s e = s.
Proof. unfold lerp. by_coordinates. apply point_eq; ring. Qed.

Lemma lerp_1 (s e : Point3D) : lerp 1 s e = e.
Proof. unfold lerp. by_coordinates. apply point_eq; ring. Qed.

Lemma lerp_same (alpha : R) (p : Point3D) : lerp alpha p p = p.
Proof. unfold lerp. by_coordinates. apply point_eq; ring. Qed.

Lemma arc_point_0 (arc_angle : R) (u s e : Point3D) :
  arc_point arc_angle u 0 s e = s.
Proof.
  unfold arc_point. rewrite Rmult_0_l, rotate_0.
  generalize (arc_center arc_angle u s e) as c. intros c.
  by_coordinates. apply point_eq; ring.
Qed.

(** A point that does not move is its own centre. *)
Lemma arc_point_same (arc_angle : R) (u : Point3D) (alpha : R) (p : Point3D) :
  arc_point arc_angle u alpha p p = p.
Proof.
  unfold arc_point, arc_center, rotate. rewrite rotate_formula.
  generalize (cos (arc_angle / 2) / sin (arc_angle / 2)) as q.
  generalize (cos (alpha * arc_angle)) as c, (sin (alpha * arc_angle)) as k.
  intros c k q. by_coordinates. unfold Rdiv. apply point_eq; ring.
Qed.

Lemma spiral_point_0 (angle : R) (u s e : Point3D) :
  spiral_point angle u 0 s e = s.
Proof.
  unfold spiral_point.
  generalize (rotate ((0 - 1) * angle) u (vsub e s)) as r. intros r.
  by_coordinates. apply point_eq; ring.
Qed.

Lemma spiral_point_1 (angle : R) (u s e : Point3D) :
  spiral_point angle u 1 s e = e.
Proof.
  unfold spiral_point.
  replace ((1 - 1) * angle) with 0 by ring. rewrite rotate_0.
  by_coordinates. apply point_eq; ring.
Qed.

Lemma spiral_point_same (angle : R) (u : Point3D) (alpha : R) (p : Point3D) :
  spiral_point angle u alpha p p = p.
Proof.
  unfold spiral_point, rotate. rewrite rotate_formula.
  generalize (cos ((alpha - 1) * angle)) as c, (sin ((alpha - 1) * angle)) as k.
  intros c k. by_coordinates. apply point_eq; ring.
Qed.

Lemma circle_point_0 (arc_angle : R) (u c s e : Point3D) :
  circle_point arc_angle u 0 c s e = s.
Proof.
  unfold circle_point. rewrite lerp_0, Rmult_0_l, rotate_0.
  by_coordinates. apply point_eq; ring.
Qed.

Lemma arc_point_PI_half (p q : Point3D) :
  arc_point PI OUT 0.5 p q = quarter_turn_point p q.
Proof.
  unfold arc_point, arc_center, rotate, quarter_turn_point.
  rewrite rotate_formula, half_PI, cos_PI2, sin_PI2.
  by_coordinates. apply point_eq; lra.
Qed.

Lemma arc_point_neg_PI_half (p q : Point3D) :
  arc_point (- PI) OUT 0.5 p q = quarter_turn_back_point p q.
Proof.
  unfold arc_point, arc_center, rotate, quarter_turn_back_point.
  rewrite rotate_formula, neg_half_PI, cos_neg, sin_neg, cos_PI2, sin_PI2,
    cos_neg_PI2, sin_neg_PI2.
  by_coordinates. apply point_eq; lra.
Qed.

Lemma quarter_turn_point_midpoint (p q : Point3D) :
  quarter_turn_point p q = chord_midpoint p q <-> p = q.
Proof.
  unfold quarter_turn_point, chord_midpoint. by_coordinates. split.
  - intros H. injection H as H1 H2 H3. apply point_eq; lra.
  - intros H. injection H as -> -> ->. apply point_eq; lra.
Qed.

Lemma reflect_quarter_turn (p q : Point3D) :
  reflect_across_chord p q (quarter_turn_point p q)
  = quarter_turn_back_point p q.
Proof.
  destruct p as [x y z], q as [x' y' z'].
  unfold reflect_across_chord, quarter_turn_point, quarter_turn_back_point.
  cbv zeta. destruct (Req_dec_T _ _) as [Hz|Hnz]; by_coordinates.
  - destruct (sum_squares_zero _ _ _ Hz) as (Hy & Hx & _).
    apply point_eq; lra.
  - apply point_eq; field; intros E; apply Hnz; nsatz.
Qed.

Lemma reflect_quarter_turn_back (p q : Point3D) :
  reflect_across_chord p q (quarter_turn_back_point p q)
  = quarter_turn_point p q.
Proof.
  destruct p as [x y z], q as [x' y' z'].
  unfold reflect_across_chord, quarter_turn_point, quarter_turn_back_point.
  cbv zeta. destruct (Req_dec_T _ _) as [Hz|Hnz]; by_coordinates.
  - destruct (sum_squares_zero _ _ _ Hz) as (Hy & Hx & _).
    apply point_eq; lra.
  - apply point_eq; field; intros E; apply Hnz; nsatz.
Qed.

Create HintDb angles.

#[local] Hint Resolve regular_PI regular_neg_PI not_small_PI not_small_neg_PI
  normalize_unit : angles.

(** ** Rotations about a unit axis *)

Section UnitAxis.

Variable u : Point3D.
Hypothesis u_unit : dot u u = 1.

(** The proofs by coordinates take the axis apart, so they start from a copy
    of it. *)
Ltac fresh_axis := generalize u_unit; generalize u; clear u u_unit; intros u Hu.

(** A rotation about a unit axis keeps lengths. *)
Lemma rotate_dot (a : R) (v : Point3D) :
  dot (rotate a u v) (rotate a u v) = dot v v.
Proof.
  fresh_axis. unfold rotate. rewrite rotate_formula.
  pose proof (sin2_cos2 a) as Ht. unfold Rsqr in Ht.
  revert Ht. generalize (cos a) as c, (sin a) as k. intros c k Ht.
  by_coordinates. nsatz.
Qed.

(** Rotating back and forth about a unit axis is the identity. *)
Lemma rotate_inverse (a : R) (v : Point3D) :
  rotate a u (rotate (- a) u v) = v.
Proof.
  fresh_axis. unfold rotate. rewrite !rotate_formula, cos_neg, sin_neg.
  pose proof (sin2_cos2 a) as Ht. unfold Rsqr in Ht.
  revert Ht. generalize (cos a) as c, (sin a) as k. intros c k Ht.
  by_coordinates. apply point_eq; nsatz.
Qed.

(** A vector along the axis is left where it is. *)
Lemma rotate_on_axis (a : R) (w : Point3D) :
  cross u w = ORIGIN -> rotate a u w = w.
Proof.
  fresh_axis. intros Hc. unfold rotate. rewrite rotate_formula, Hc.
  generalize (cos a) as c, (sin a) as k. intros c k.
  by_coordinates. injection Hc as H1 H2 H3.
  apply point_eq; nsatz.
Qed.

(** Every point of an orbit is as far from the centre as its first point. *)
Lemma orbit_radius (a : R) (c p : Point3D) :
  norm (vsub (vadd c (rotate a u (vsub p c))) c) = norm (vsub p c).
Proof.
  unfold norm. f_equal.
  rewrite <- (rotate_dot a (vsub p c)).
  generalize (rotate a u (vsub p c)) as r. intros r.
  fresh_axis. by_coordinates. ring.
Qed.

(** The rotation by the whole [arc_angle] about the centre carries [s] to [e]
    when the chord is perpendicular to the axis. *)
Lemma arc_point_1 (arc_angle : R) (s e : Point3D) :
  dot u (vsub e s) = 0 -> sin (arc_angle / 2) <> 0 ->
  arc_point arc_angle u 1 s e = e.
Proof.
  fresh_axis. intros Hperp Hs. unfold arc_point, arc_center, rotate.
  rewrite rotate_formula, Rmult_1_l.
  assert (Hc2 : cos arc_angle
                = 1 - 2 * sin (arc_angle / 2) * sin (arc_angle / 2))
    by (rewrite <- cos_2a_sin; f_equal; field).
  assert (Hs2 : sin arc_angle
                = 2 * sin (arc_angle / 2) * cos (arc_angle / 2))
    by (rewrite <- sin_2a; f_equal; field).
  rewrite Hc2, Hs2. clear Hc2 Hs2.
  pose proof (sin2_cos2 (arc_angle / 2)) as Ht. unfold Rsqr in Ht.
  assert (Hq : cos (arc_angle / 2) / sin (arc_angle / 2) * sin (arc_angle / 2)
               = cos (arc_angle / 2)) by (field; exact Hs).
  revert Ht Hq.
  generalize (cos (arc_angle / 2) / sin (arc_angle / 2)) as q.
  generalize (cos (arc_angle / 2)) as c, (sin (arc_angle / 2)) as k.
  intros c k q Ht Hq. clear Hs.
  replace 0.5 with (/ 2) by lra.
  assert (Hh : 2 * / 2 = 1) by lra. revert Hh. generalize (/ 2) as h.
  intros h Hh.
  by_coordinates. unfold Rdiv.
  replace (/ 2) with h by lra.
  apply point_eq; nsatz.
Qed.

(** [path_along_circles] at [alpha = 1]: the turn forward undoes the turn
    backward of the end point. *)
Lemma circle_point_1 (arc_angle : R) (c s e : Point3D) :
  circle_point arc_angle u 1 c s e = e.
Proof.
  unfold circle_point. rewrite lerp_1, Rmult_1_l.
  replace (vsub (vadd c (rotate (- arc_angle) u (vsub e c))) c)
    with (rotate (- arc_angle) u (vsub e c)).
  - rewrite rotate_inverse. clear. by_coordinates. apply point_eq; ring.
  - generalize (rotate (- arc_angle) u (vsub e c)) as r. intros r.
    clear. by_coordinates. apply point_eq; ring.
Qed.

Lemma circle_point_on_axis (arc_angle alpha : R) (c p : Point3D) :
  on_axis u c p -> circle_point arc_angle u alpha c p p = p.
Proof.
  intros Hp. unfold circle_point, on_axis in *.
  rewrite (rotate_on_axis (- arc_angle) (vsub p c) Hp).
  replace (vadd c (vsub p c)) with p
    by (clear; by_coordinates; apply point_eq; ring).
  rewrite lerp_same, (rotate_on_axis (alpha * arc_angle) (vsub p c) Hp).
  clear. by_coordinates. apply point_eq; ring.
Qed.

End UnitAxis.

Lemma arc_law_0 (arc_angle : R) (u s e : Point3D) :
  arc_law arc_angle u 0 s e = s.
Proof.
  unfold arc_law. destruct (Rlt_dec _ _); [apply lerp_0|apply arc_point_0].
Qed.

Lemma arc_law_1 (arc_angle : R) (u s e : Point3D) :
  arc_angle_regular arc_angle -> dot u u = 1 -> dot u (vsub e s) = 0 ->
  arc_law arc_angle u 1 s e = e.
Proof.
  intros Hreg Hu Hp. unfold arc_law.
  destruct (Rlt_dec _ _) as [Hlt|Hge]; [apply lerp_1|].
  destruct Hreg as [Hlt|Hs]; [contradiction|]. now apply arc_point_1.
Qed.

Lemma arc_law_same (arc_angle : R) (u : Point3D) (alpha : R) (p : Point3D) :
  arc_law arc_angle u alpha p p = p.
Proof.
  unfold arc_law. destruct (Rlt_dec _ _); [apply lerp_same|apply arc_point_same].
Qed.

Lemma spiral_law_0 (angle : R) (u s e : Point3D) :
  spiral_law angle u 0 s e = s.
Proof.
  unfold spiral_law. destruct (Rlt_dec _ _); [apply lerp_0|apply spiral_point_0].
Qed.

Lemma spiral_law_1 (angle : R) (u s e : Point3D) :
  spiral_law angle u 1 s e = e.
Proof.
  unfold spiral_law. destruct (Rlt_dec _ _); [apply lerp_1|apply spiral_point_1].
Qed.

Lemma spiral_law_same (angle : R) (u : Point3D) (alpha : R) (p : Point3D) :
  spiral_law angle u alpha p p = p.
Proof.
  unfold spiral_law.
  destruct (Rlt_dec _ _); [apply lerp_same|apply spiral_point_same].
Qed.

(** * The array code computes the law of one point at every index *)

Lemma interpolate_pointwise (s e : Point3D_Array) (alpha : R) :
  length s = length e ->
  interpolate s e alpha = Ok (zipWith (lerp alpha) s e).
Proof.
  intros H. unfold interpolate, np_sub, np_add, np_scale.
  rewrite broadcast_same by auto. simpl.
  rewrite broadcast_same by (rewrite length_map, zipWith_length; auto).
  f_equal. revert e H; induction s as [|p s IH]; intros [|q e] H;
    simpl in *; try discriminate; auto.
  f_equal. apply IH. lia.
Qed.

Lemma div_scalar_tan (x a : R) :
  sin a <> 0 -> div_scalar x (np_tan a) = Ok (cos a / sin a * x).
Proof.
  intros Hs. unfold np_tan.
  destruct (Req_dec_T (cos a) 0) as [Hc|Hc]; simpl.
  - f_equal. rewrite Hc. field. exact Hs.
  - destruct (Req_dec_T (sin a / cos a) 0) as [Ht|Ht].
    + exfalso. apply Hs.
      replace (sin a) with (sin a / cos a * cos a) by (field; exact Hc).
      rewrite Ht. ring.
    + f_equal. field. split; assumption.
Qed.

Lemma np_div_tan (arr : Point3D_Array) (a : R) :
  sin a <> 0 ->
  np_div arr (np_tan a) = Ok (map (vscale (cos a / sin a)) arr).
Proof.
  intros Hs. unfold np_div.
  induction arr as [|p arr IH]; simpl; auto.
  rewrite IH. unfold div_point.
  rewrite !div_scalar_tan by exact Hs. reflexivity.
Qed.

(** An exact tangent that is 0 leaves no quotient. *)
Lemma np_div_tan_zero (p : Point3D) (arr : Point3D_Array) (a : R) :
  sin a = 0 -> np_div (p :: arr) (np_tan a) = NonFinite.
Proof.
  intros Hs. unfold np_div, np_tan; simpl.
  destruct (Req_dec_T (cos a) 0) as [Hc|Hc].
  - exfalso. pose proof (sin2_cos2 a) as H. unfold Rsqr in H.
    rewrite Hs, Hc in H. lra.
  - unfold div_point, div_scalar.
    destruct (Req_dec_T (sin a / cos a) 0) as [Ht|Ht]; auto.
    exfalso. apply Ht. rewrite Hs. unfold Rdiv. ring.
Qed.

Lemma arc_centers_pointwise (arc_angle : R) (u : Point3D)
  (s e : Point3D_Array) :
  length s = length e -> sin (arc_angle / 2) <> 0 ->
  arc_centers arc_angle u s e = Ok (zipWith (arc_center arc_angle u) s e).
Proof.
  intros H Hs. unfold arc_centers, np_sub, np_add, np_scale, np_cross, np_halve.
  rewrite broadcast_same by auto. simpl.
  rewrite broadcast_same by (rewrite length_map, zipWith_length; auto).
  simpl. destruct (Req_dec_T arc_angle PI) as [Hpi|Hpi].
  - f_equal. assert (Hc : cos (arc_angle / 2) = 0)
      by (rewrite Hpi; apply cos_PI2).
    unfold arc_center. rewrite Hc.
    clear Hs Hc Hpi. revert e H; induction s as [|p s IH]; intros [|q e] H;
      simpl in *; try discriminate; auto.
    f_equal; [|apply IH; lia].
    by_coordinates. apply point_eq; unfold Rdiv; ring.
  - rewrite np_div_tan by exact Hs. simpl.
    rewrite broadcast_same
      by (rewrite !length_map, !zipWith_length; rewrite ?length_map,
            ?zipWith_length; auto).
    f_equal. unfold arc_center.
    generalize (cos (arc_angle / 2) / sin (arc_angle / 2)) as k. intros k.
    clear Hs Hpi. revert e H; induction s as [|p s IH]; intros [|q e] H;
      simpl in *; try discriminate; auto.
    f_equal. apply IH. lia.
Qed.

Lemma arc_centers_length (arc_angle : R) (u : Point3D)
  (s e centers : Point3D_Array) :
  length s = length e ->
  arc_centers arc_angle u s e = Ok centers -> length centers = length s.
Proof.
  intros H. unfold arc_centers, np_sub, np_add, np_scale, np_cross, np_halve.
  rewrite broadcast_same by auto. simpl.
  rewrite broadcast_same by lengths. simpl.
  destruct (Req_dec_T arc_angle PI) as [_|_].
  - intros E; injection E as <-. lengths.
  - destruct (np_div _ _) as [off| |] eqn:E; simpl; try discriminate.
    apply mapM_length in E. rewrite broadcast_same by (rewrite E; lengths).
    intros E'; injection E' as <-. rewrite zipWith_length_min, E. lengths.
Qed.

Lemma path_along_arc_pointwise (arc_angle : R) (axis : Point3D)
  (s e : Point3D_Array) (alpha : R) :
  length s = length e -> ~ Rabs arc_angle < STRAIGHT_PATH_THRESHOLD ->
  sin (arc_angle / 2) <> 0 ->
  path_along_arc arc_angle axis s e alpha
  = Ok (zipWith (arc_point arc_angle (normalize axis OUT) alpha) s e).
Proof.
  intros H Hbig Hs. unfold path_along_arc.
  destruct (Rlt_dec (Rabs arc_angle) STRAIGHT_PATH_THRESHOLD) as [Hlt|_];
    [contradiction|].
  rewrite arc_centers_pointwise by assumption. simpl.
  unfold np_sub, np_add, np_dot.
  rewrite broadcast_same by (rewrite zipWith_length; auto). simpl.
  rewrite broadcast_same
    by (rewrite length_map, !zipWith_length; rewrite ?zipWith_length; auto).
  f_equal. unfold arc_point, rotate.
  generalize (arc_center arc_angle (normalize axis OUT)) as c.
  generalize (transpose (rotation_matrix (alpha * arc_angle)
                           (normalize axis OUT))) as m.
  intros m c. revert e H; induction s as [|p s IH]; intros [|q e] H;
    simpl in *; try discriminate; auto.
  f_equal. apply IH. lia.
Qed.

(** The last two lines of [path_along_arc]'s closure, for given centres. *)
Lemma path_along_arc_about (arc_angle : R) (axis : Point3D)
  (s e centers : Point3D_Array) (alpha : R) :
  ~ Rabs arc_angle < STRAIGHT_PATH_THRESHOLD ->
  arc_centers arc_angle (normalize axis OUT) s e = Ok centers ->
  length centers = length s ->
  path_along_arc arc_angle axis s e alpha
  = Ok (zipWith (fun c p =>
                   vadd c (rotate (alpha * arc_angle) (normalize axis OUT)
                             (vsub p c)))
          centers s).
Proof.
  intros Hbig Hc Hl. unfold path_along_arc.
  destruct (Rlt_dec (Rabs arc_angle) STRAIGHT_PATH_THRESHOLD) as [Hlt|_];
    [contradiction|].
  rewrite Hc. simpl. unfold np_sub, np_add, np_dot.
  rewrite broadcast_same by auto. simpl.
  rewrite broadcast_same by lengths.
  f_equal. unfold rotate.
  generalize (transpose (rotation_matrix (alpha * arc_angle)
                           (normalize axis OUT))) as m.
  intros m. clear Hc. revert s Hl; induction centers as [|c cs IH];
    intros [|p s] Hl; simpl in *; try discriminate; auto.
  f_equal. apply IH. lia.
Qed.

Lemma spiral_path_pointwise (angle : R) (axis : Point3D)
  (s e : Point3D_Array) (alpha : R) :
  length s = length e -> ~ Rabs angle < STRAIGHT_PATH_THRESHOLD ->
  spiral_path angle axis s e alpha
  = Ok (zipWith (spiral_point angle (normalize axis OUT) alpha) s e).
Proof.
  intros H Hbig. unfold spiral_path.
  destruct (Rlt_dec (Rabs angle) STRAIGHT_PATH_THRESHOLD) as [Hlt|_];
    [contradiction|].
  unfold np_sub, np_add, np_dot, np_scale.
  rewrite broadcast_same by auto. simpl.
  rewrite broadcast_same by (rewrite !length_map, zipWith_length; auto).
  f_equal. unfold spiral_point, rotate.
  generalize (transpose (rotation_matrix ((alpha - 1) * angle)
                           (normalize axis OUT))) as m.
  intros m. revert e H; induction s as [|p s IH]; intros [|q e] H;
    simpl in *; try discriminate; auto.
  f_equal. apply IH. lia.
Qed.

(** One centre for all points: [circles_centers] of shape (3,) or (1, 3). *)
Lemma path_along_circles_single (arc_angle : R) (c axis : Point3D)
  (s e : Point3D_Array) (alpha : R) :
  length s = length e ->
  path_along_circles arc_angle [c] axis s e alpha
  = Ok (zipWith (circle_point arc_angle (normalize axis OUT) alpha c) s e).
Proof.
  intros H. unfold path_along_circles, np_sub, np_add, np_dot.
  rewrite broadcast_single_r. simpl.
  rewrite broadcast_single_l. simpl.
  rewrite interpolate_pointwise by (rewrite !length_map; auto). simpl.
  rewrite broadcast_single_r. simpl.
  rewrite broadcast_single_l. f_equal.
  unfold circle_point, rotate.
  generalize (transpose (rotation_matrix (alpha * arc_angle)
                           (normalize axis OUT))) as m.
  generalize (transpose (rotation_matrix (- arc_angle)
                           (normalize axis OUT))) as m'.
  intros m' m. revert e H; induction s as [|p s IH]; intros [|q e] H;
    simpl in *; try discriminate; auto.
  f_equal. apply IH. lia.
Qed.

(** One centre per point: [circles_centers] of shape (n, 3). *)
Lemma path_along_circles_each (arc_angle : R) (cs : Point3D_Array)
  (axis : Point3D) (s e : Point3D_Array) (alpha : R) :
  length cs = length s -> length s = length e ->
  path_along_circles arc_angle cs axis s e alpha
  = Ok (zipWith3 (circle_point arc_angle (normalize axis OUT) alpha) cs s e).
Proof.
  intros Hc H. unfold path_along_circles, np_sub, np_add, np_dot.
  rewrite broadcast_same by lengths. simpl.
  rewrite broadcast_same by lengths. simpl.
  rewrite interpolate_pointwise by lengths. simpl.
  rewrite broadcast_same by lengths. simpl.
  rewrite broadcast_same by lengths.
  f_equal. unfold circle_point, rotate.
  generalize (transpose (rotation_matrix (alpha * arc_angle)
                           (normalize axis OUT))) as m.
  generalize (transpose (rotation_matrix (- arc_angle)
                           (normalize axis OUT))) as m'.
  intros m' m. revert cs e Hc H; induction s as [|p s IH];
    intros [|c cs] [|q e] Hc H; simpl in *; try discriminate; auto.
  f_equal. apply IH; lia.
Qed.

Lemma path_along_arc_law (arc_angle : R) (axis : Point3D)
  (s e : Point3D_Array) (alpha : R) :
  length s = length e -> arc_angle_regular arc_angle ->
  path_along_arc arc_angle axis s e alpha
  = Ok (zipWith (arc_law arc_angle (normalize axis OUT) alpha) s e).
Proof.
  intros H Hreg. unfold arc_law.
  destruct (Rlt_dec (Rabs arc_angle) STRAIGHT_PATH_THRESHOLD) as [Hlt|Hge] eqn:E.
  - unfold path_along_arc. rewrite E. apply interpolate_pointwise, H.
  - destruct Hreg as [Hlt|Hs]; [contradiction|].
    apply path_along_arc_pointwise; assumption.
Qed.

Lemma spiral_path_law (angle : R) (axis : Point3D)
  (s e : Point3D_Array) (alpha : R) :
  length s = length e ->
  spiral_path angle axis s e alpha
  = Ok (zipWith (spiral_law angle (normalize axis OUT) alpha) s e).
Proof.
  intros H. unfold spiral_law.
  destruct (Rlt_dec (Rabs angle) STRAIGHT_PATH_THRESHOLD) as [Hlt|Hge] eqn:E.
  - unfold spiral_path. rewrite E. apply interpolate_pointwise, H.
  - apply spiral_path_pointwise; assumption.
Qed.

(** At an arc angle that is not regular the exact reading of
    [path_along_arc]'s closure has no value: the tangent of the half angle
    is 0 in the reals. *)
Lemma path_along_arc_singular (arc_angle : R) (axis : Point3D)
  (s e : Point3D_Array) (alpha : R) :
  length s = length e -> s <> [] -> ~ arc_angle_regular arc_angle ->
  path_along_arc arc_angle axis s e alpha = NonFinite.
Proof.
  intros H Hne Hirr. unfold arc_angle_regular in Hirr.
  assert (Hbig : ~ Rabs arc_angle < STRAIGHT_PATH_THRESHOLD) by tauto.
  assert (Hs : sin (arc_angle / 2) = 0).
  { destruct (Req_dec_T (sin (arc_angle / 2)) 0); tauto. }
  unfold path_along_arc.
  destruct (Rlt_dec (Rabs arc_angle) STRAIGHT_PATH_THRESHOLD) as [Hlt|_];
    [contradiction|].
  unfold arc_centers, np_sub, np_add, np_scale, np_cross, np_halve.
  rewrite broadcast_same by auto. simpl.
  rewrite broadcast_same by lengths. simpl.
  destruct (Req_dec_T arc_angle PI) as [Hpi|_].
  - exfalso. rewrite Hpi, sin_PI2 in Hs. lra.
  - destruct s as [|p s]; [congruence|]. destruct e as [|q e]; [discriminate|].
    simpl zipWith. simpl map. rewrite np_div_tan_zero by exact Hs.
    reflexivity.
Qed.

Lemma path_along_arc_PI_half (s e : Point3D_Array) :
  length s = length e ->
  path_along_arc PI OUT s e 0.5 = Ok (zipWith quarter_turn_point s e).
Proof.
  intros H. rewrite path_along_arc_pointwise; auto using not_small_PI.
  - rewrite normalize_OUT. apply f_equal, zipWith_ext, Forall2_same_length; auto.
    intros; apply arc_point_PI_half.
  - rewrite sin_PI2. lra.
Qed.

Lemma path_along_arc_neg_PI_half (s e : Point3D_Array) :
  length s = length e ->
  path_along_arc (- PI) OUT s e 0.5 = Ok (zipWith quarter_turn_back_point s e).
Proof.
  intros H. rewrite path_along_arc_pointwise; auto using not_small_neg_PI.
  - rewrite normalize_OUT. apply f_equal, zipWith_ext, Forall2_same_length; auto.
    intros; apply arc_point_neg_PI_half.
  - rewrite sin_neg_PI2. lra.
Qed.

(** * The claims *)

(** ** C1: start and end of a path *)

Lemma path_along_circles_0 (arc_angle : R) (cs : Point3D_Array)
  (axis : Point3D) (s e : Point3D_Array) :
  length s = length e -> centers_fit cs (length s) ->
  path_along_circles arc_angle cs axis s e 0 = Ok s.
Proof.
  intros H [Hc|Hc].
  - rewrite path_along_circles_each by assumption. apply f_equal.
    apply zipWith3_fix_2; auto. intros; apply circle_point_0.
  - destruct cs as [|c [|c' cs]]; try discriminate.
    rewrite path_along_circles_single by assumption. apply f_equal.
    apply zipWith_fix_l, Forall2_same_length; auto.
    intros; apply circle_point_0.
Qed.

Lemma path_along_circles_1 (arc_angle : R) (cs : Point3D_Array)
  (axis : Point3D) (s e : Point3D_Array) :
  length s = length e -> centers_fit cs (length s) ->
  path_along_circles arc_angle cs axis s e 1 = Ok e.
Proof.
  intros H [Hc|Hc].
  - rewrite path_along_circles_each by assumption. apply f_equal.
    apply zipWith3_fix_3; auto. intros; apply circle_point_1, normalize_unit.
  - destruct cs as [|c [|c' cs]]; try discriminate.
    rewrite path_along_circles_single by assumption. apply f_equal.
    apply zipWith_fix_r, Forall2_same_length; auto.
    intros; apply circle_point_1, normalize_unit.
Qed.

Lemma path_along_arc_0 (arc_angle : R) (axis : Point3D) (s e : Point3D_Array) :
  length s = length e -> arc_angle_regular arc_angle ->
  path_along_arc arc_angle axis s e 0 = Ok s.
Proof.
  intros H Hreg. rewrite path_along_arc_law by assumption. apply f_equal.
  apply zipWith_fix_l, Forall2_same_length; auto. intros; apply arc_law_0.
Qed.

Lemma path_along_arc_1 (arc_angle : R) (axis : Point3D) (s e : Point3D_Array) :
  arc_angle_regular arc_angle ->
  Forall2 (chord_perpendicular (normalize axis OUT)) s e ->
  path_along_arc arc_angle axis s e 1 = Ok e.
Proof.
  intros Hreg Hp.
  assert (H : length s = length e) by (eapply Forall2_length; eauto).
  rewrite path_along_arc_law by assumption. apply f_equal.
  apply zipWith_fix_r. eapply Forall2_weaken; [|exact Hp].
  intros p q Hpq. apply arc_law_1; auto. apply normalize_unit.
Qed.

Lemma level_chords (s e : Point3D_Array) :
  Forall2 (fun p q => pz p = pz q) s e ->
  Forall2 (chord_perpendicular (normalize OUT OUT)) s e.
Proof.
  apply Forall2_weaken. intros [x y z] [x' y' z'] Hz.
  rewrite normalize_OUT. unfold chord_perpendicular. by_coordinates.
  rewrite Hz. ring.
Qed.

(** C1, amended.  For collections [s], [e] of equal length:
    [straight_path], [spiral_path] and [path_along_circles] (its centres one
    per point or a single one) return [s] at [alpha = 0] and [e] at
    [alpha = 1]; [path_along_arc], for an arc angle below the threshold or
    with [sin (arc_angle / 2) <> 0], returns [s] at [alpha = 0], and returns
    [e] at [alpha = 1] when every chord [e_i - s_i] is perpendicular to the
    unit axis; for [clockwise_path] and [counterclockwise_path] that is when
    [s_i] and [e_i] have the same z. *)
Theorem path_endpoints (s e : Point3D_Array) :
  length s = length e -> endpoint_law s e.
Proof.
  intros H. unfold endpoint_law, joins. repeat split.
  - unfold straight_path. rewrite interpolate_pointwise by exact H.
    apply f_equal, zipWith_fix_l, Forall2_same_length; auto.
    intros; apply lerp_0.
  - unfold straight_path. rewrite interpolate_pointwise by exact H.
    apply f_equal, zipWith_fix_r, Forall2_same_length; auto.
    intros; apply lerp_1.
  - apply path_along_circles_0; assumption.
  - apply path_along_circles_1; assumption.
  - rewrite spiral_path_law by exact H.
    apply f_equal, zipWith_fix_l, Forall2_same_length; auto.
    intros; apply spiral_law_0.
  - rewrite spiral_path_law by exact H.
    apply f_equal, zipWith_fix_r, Forall2_same_length; auto.
    intros; apply spiral_law_1.
  - apply path_along_arc_0; assumption.
  - intros Hp. apply path_along_arc_1; assumption.
  - apply path_along_arc_0; auto with angles.
  - intros Hz. apply path_along_arc_1; auto using level_chords with angles.
  - apply path_along_arc_0; auto with angles.
  - intros Hz. apply path_along_arc_1; auto using level_chords with angles.
Qed.

Lemma path_endpoints_witness :
  length [mkP 0 0 0; mkP 1 2 0] = length [mkP 2 0 0; mkP 0 1 0] /\
  endpoint_law [mkP 0 0 0; mkP 1 2 0] [mkP 2 0 0; mkP 0 1 0].
Proof.
  split; [reflexivity|].
  apply (path_endpoints [mkP 0 0 0; mkP 1 2 0] [mkP 2 0 0; mkP 0 1 0]).
  reflexivity.
Defined.

(** A half turn about the vertical axis through the midpoint of a vertical
    chord leaves the start point where it is. *)
Lemma counterclockwise_vertical_chord :
  counterclockwise_path [mkP 0 0 0] [mkP 0 0 1] 1 = Ok [mkP 0 0 0].
Proof.
  unfold counterclockwise_path.
  rewrite path_along_arc_pointwise.
  - simpl. rewrite normalize_OUT. unfold arc_point, arc_center, rotate.
    rewrite rotate_formula, Rmult_1_l, cos_PI, sin_PI, cos_PI2, sin_PI2.
    by_coordinates. apply f_equal. f_equal. apply point_eq; lra.
  - reflexivity.
  - rewrite Rabs_PI. unfold STRAIGHT_PATH_THRESHOLD. pose proof PI_gt_3. lra.
  - rewrite sin_PI2. lra.
Qed.

(** C1 as stated fails: [counterclockwise_path()] at [alpha = 1] does not
    reach an end point that lies straight above its start point. *)
Lemma path_endpoints_counterexample :
  ~ (counterclockwise_path [mkP 0 0 0] [mkP 0 0 1] 1 = Ok [mkP 0 0 1]).
Proof.
  rewrite counterclockwise_vertical_chord. intros H.
  injection H as H. lra.
Qed.

(** ** C2: points that do not move *)

Lemma path_along_arc_same (arc_angle : R) (axis : Point3D)
  (p : Point3D_Array) (alpha : R) :
  arc_angle_regular arc_angle ->
  path_along_arc arc_angle axis p p alpha = Ok p.
Proof.
  intros Hreg. rewrite path_along_arc_law by auto.
  apply f_equal, zipWith_diag, Forall_all. intros; apply arc_law_same.
Qed.

(** C2, amended.  With start and end the same collection [p] and any real
    [alpha], [straight_path], [spiral_path], [clockwise_path],
    [counterclockwise_path], and [path_along_arc] for an arc angle below
    the threshold or with [sin (arc_angle / 2) <> 0], return [p];
    [path_along_circles] returns [p] when every point lies on the rotation
    axis through its centre, as it does when it is its own centre. *)
Theorem stationary_points (p : Point3D_Array) (alpha : R) :
  stationary_law p alpha.
Proof.
  unfold stationary_law. repeat split.
  - unfold straight_path. rewrite interpolate_pointwise by reflexivity.
    apply f_equal, zipWith_diag, Forall_all. intros; apply lerp_same.
  - intros angle axis. rewrite spiral_path_law by reflexivity.
    apply f_equal, zipWith_diag, Forall_all. intros; apply spiral_law_same.
  - intros arc_angle axis Hreg. apply path_along_arc_same, Hreg.
  - apply path_along_arc_same; auto with angles.
  - apply path_along_arc_same; auto with angles.
  - intros arc_angle cs axis Hon.
    rewrite path_along_circles_each
      by (try reflexivity; eapply Forall2_length; eauto).
    apply f_equal, zipWith3_diag. eapply Forall2_weaken; [|exact Hon].
    intros c x Hx. apply circle_point_on_axis; [apply normalize_unit|exact Hx].
  - intros arc_angle c axis Hon.
    rewrite path_along_circles_single by reflexivity.
    apply f_equal, zipWith_diag. eapply Forall_impl; [|exact Hon].
    intros x Hx. apply circle_point_on_axis; [apply normalize_unit|exact Hx].
Qed.

Lemma stationary_points_witness : stationary_law [mkP 1 2 3; mkP 0 0 1] 0.3.
Proof. apply (stationary_points [mkP 1 2 3; mkP 0 0 1] 0.3). Defined.

(** A point at distance 1 from the centre of a half-turn orbit is at the
    centre half way through. *)
Lemma path_along_circles_stationary_point :
  path_along_circles PI [mkP 0 0 0] OUT [mkP 1 0 0] [mkP 1 0 0] 0.5
  = Ok [mkP 0 0 0].
Proof.
  rewrite path_along_circles_single by reflexivity.
  simpl. rewrite normalize_OUT. unfold circle_point, lerp, rotate.
  rewrite !rotate_formula, half_PI, cos_neg, sin_neg, cos_PI, sin_PI,
    cos_PI2, sin_PI2.
  by_coordinates. apply f_equal. f_equal. apply point_eq; lra.
Qed.

(** C2 as stated fails: [path_along_circles] can move a point whose start
    and end coincide.  Half way through a half turn about the origin the
    point (1, 0, 0) is at the origin. *)
Lemma stationary_points_counterexample :
  path_along_circles PI [mkP 0 0 0] OUT [mkP 1 0 0] [mkP 1 0 0] 0.5
  = Ok [mkP 0 0 0]
  /\ ~ (path_along_circles PI [mkP 0 0 0] OUT [mkP 1 0 0] [mkP 1 0 0] 0.5
        = Ok [mkP 1 0 0]).
Proof.
  split; [apply path_along_circles_stationary_point|].
  rewrite path_along_circles_stationary_point. intros H.
  injection H as H. lra.
Qed.

(** ** C3: half circles at half time *)

(** C3, amended.  For collections [s], [e] of equal length,
    [path_along_arc(PI)(s, e, 0.5)] has at every index the point a quarter
    turn about the chord midpoint away from [s_i],
    [((sx+ex)/2 - (sy-ey)/2, (sy+ey)/2 + (sx-ex)/2, sz)]; it is the chord
    midpoint [(s_i + e_i) / 2] exactly when [s_i = e_i]. *)
Theorem half_circle_at_half_time (s e : Point3D_Array) :
  length s = length e ->
  exists out,
    path_along_arc PI OUT s e 0.5 = Ok out /\
    length out = length s /\
    forall i, (i < length s)%nat ->
      let p := nth i s ORIGIN in
      let q := nth i e ORIGIN in
      nth i out ORIGIN = quarter_turn_point p q /\
      (nth i out ORIGIN = chord_midpoint p q <-> p = q).
Proof.
  intros H. exists (zipWith quarter_turn_point s e). split; [|split].
  - apply path_along_arc_PI_half, H.
  - apply zipWith_length, H.
  - intros i Hi. cbv zeta.
    rewrite (nth_zipWith quarter_turn_point s e i ORIGIN ORIGIN ORIGIN H Hi).
    split; [reflexivity|apply quarter_turn_point_midpoint].
Qed.

Lemma half_circle_at_half_time_witness :
  length [mkP (-1) 0 0] = length [mkP 1 0 0] /\
  exists out,
    path_along_arc PI OUT [mkP (-1) 0 0] [mkP 1 0 0] 0.5 = Ok out /\
    length out = length [mkP (-1) 0 0] /\
    forall i, (i < length [mkP (-1) 0 0])%nat ->
      let p := nth i [mkP (-1) 0 0] ORIGIN in
      let q := nth i [mkP 1 0 0] ORIGIN in
      nth i out ORIGIN = quarter_turn_point p q /\
      (nth i out ORIGIN = chord_midpoint p q <-> p = q).
Proof.
  split; [reflexivity|].
  apply (half_circle_at_half_time [mkP (-1) 0 0] [mkP 1 0 0]). reflexivity.
Defined.

(** C3 as stated fails: half way along the half circle from (-1, 0, 0) to
    (1, 0, 0) the point is at (0, -1, 0), not at the chord midpoint. *)
Lemma half_circle_at_half_time_counterexample :
  path_along_arc PI OUT [mkP (-1) 0 0] [mkP 1 0 0] 0.5 = Ok [mkP 0 (-1) 0]
  /\ mkP 0 (-1) 0 <> chord_midpoint (mkP (-1) 0 0) (mkP 1 0 0).
Proof.
  split.
  - rewrite path_along_arc_PI_half by reflexivity. simpl.
    unfold quarter_turn_point; simpl. apply f_equal. f_equal.
    apply point_eq; lra.
  - unfold chord_midpoint, vdiv, vadd; simpl. intros H.
    injection H as H1 H2 H3. lra.
Qed.

(** ** C4: where a path function has a value *)

Lemma defined_by_law (f : PathFuncType) (g : Point3D -> Point3D -> Point3D)
  (s e : Point3D_Array) (alpha : R) :
  length s = length e -> f s e alpha = Ok (zipWith g s e) ->
  defined_on f s e alpha.
Proof.
  intros H E. exists (zipWith g s e). split; [exact E|].
  apply zipWith_length, H.
Qed.

Lemma path_along_circles_defined (arc_angle : R) (cs : Point3D_Array)
  (axis : Point3D) (s e : Point3D_Array) (alpha : R) :
  length s = length e -> centers_fit cs (length s) ->
  defined_on (path_along_circles arc_angle cs axis) s e alpha.
Proof.
  intros H [Hc|Hc].
  - eexists. split; [apply path_along_circles_each; assumption|].
    rewrite zipWith3_length; auto.
  - destruct cs as [|c [|c' cs]]; try discriminate.
    eapply defined_by_law; [exact H|].
    apply path_along_circles_single, H.
Qed.



(** ** C5: collections of different lengths *)

Lemma interpolate_mismatch (s e : Point3D_Array) (alpha : R) :
  length s <> length e -> length s <> 1%nat -> length e <> 1%nat ->
  interpolate s e alpha = ValueError.
Proof.
  intros H Hs He. unfold interpolate, np_sub.
  rewrite broadcast_mismatch by auto. reflexivity.
Qed.

Lemma path_along_arc_mismatch (arc_angle : R) (axis : Point3D)
  (s e : Point3D_Array) (alpha : R) :
  length s <> length e -> length s <> 1%nat -> length e <> 1%nat ->
  path_along_arc arc_angle axis s e alpha = ValueError.
Proof.
  intros H Hs He. unfold path_along_arc.
  destruct (Rlt_dec (Rabs arc_angle) STRAIGHT_PATH_THRESHOLD) as [_|_].
  - apply interpolate_mismatch; assumption.
  - unfold arc_centers, np_sub. rewrite broadcast_mismatch by auto.
    reflexivity.
Qed.

Lemma spiral_path_mismatch (angle : R) (axis : Point3D)
  (s e : Point3D_Array) (alpha : R) :
  length s <> length e -> length s <> 1%nat -> length e <> 1%nat ->
  spiral_path angle axis s e alpha = ValueError.
Proof.
  intros H Hs He. unfold spiral_path.
  destruct (Rlt_dec (Rabs angle) STRAIGHT_PATH_THRESHOLD) as [_|_].
  - apply interpolate_mismatch; assumption.
  - unfold np_sub. rewrite broadcast_mismatch by auto. reflexivity.
Qed.

Lemma path_along_circles_mismatch (arc_angle : R) (cs : Point3D_Array)
  (axis : Point3D) (s e : Point3D_Array) (alpha : R) :
  length s <> length e -> length s <> 1%nat -> length e <> 1%nat ->
  path_along_circles arc_angle cs axis s e alpha = ValueError.
Proof.
  intros H Hs He. unfold path_along_circles, np_sub, np_add, np_dot.
  destruct (broadcast vsub e cs) as [d| |] eqn:E1; simpl; auto.
  2:{ exfalso. eapply broadcast_finite; eauto. }
  assert (Hd : length d = length e).
  { apply broadcast_length in E1. lia. }
  destruct (broadcast vadd cs _) as [det| |] eqn:E2; simpl; auto.
  2:{ exfalso. eapply broadcast_finite; eauto. }
  assert (Hdet : length det = length e).
  { apply broadcast_length in E2. rewrite length_map in E2. lia. }
  rewrite interpolate_mismatch by (rewrite ?Hdet; auto). reflexivity.
Qed.

Lemma interpolate_single_start (p : Point3D) (e : Point3D_Array) (alpha : R) :
  interpolate [p] e alpha = interpolate (repeat p (length e)) e alpha.
Proof.
  unfold interpolate, np_sub, np_add, np_scale.
  rewrite broadcast_repeat_r by reflexivity.
  destruct (broadcast vsub e [p]) as [d| |] eqn:E; simpl; auto.
  rewrite broadcast_repeat_l; auto.
  rewrite broadcast_single_r in E. injection E as <-. lengths.
Qed.

Lemma interpolate_single_end (s : Point3D_Array) (q : Point3D) (alpha : R) :
  interpolate s [q] alpha = interpolate s (repeat q (length s)) alpha.
Proof.
  unfold interpolate, np_sub.
  rewrite broadcast_repeat_l by reflexivity. reflexivity.
Qed.

Lemma path_along_arc_single_start (arc_angle : R) (axis p : Point3D)
  (e : Point3D_Array) (alpha : R) :
  path_along_arc arc_angle axis [p] e alpha
  = path_along_arc arc_angle axis (repeat p (length e)) e alpha.
Proof.
  unfold path_along_arc.
  destruct (Rlt_dec (Rabs arc_angle) STRAIGHT_PATH_THRESHOLD) as [_|_];
    [apply interpolate_single_start|].
  unfold arc_centers, np_sub, np_add, np_scale, np_cross, np_halve, np_dot.
  rewrite broadcast_repeat_r by reflexivity.
  rewrite broadcast_single_r. simpl.
  rewrite broadcast_repeat_l by lengths.
  rewrite broadcast_single_l. simpl.
  destruct (Req_dec_T arc_angle PI) as [_|_]; simpl.
  - rewrite broadcast_repeat_l by lengths. reflexivity.
  - destruct (np_div _ _) as [off| |] eqn:E; simpl; auto.
    apply mapM_length in E. rewrite !length_map in E.
    rewrite broadcast_same by lengths. simpl.
    rewrite broadcast_repeat_l by lengths. reflexivity.
Qed.

Lemma path_along_arc_single_end (arc_angle : R) (axis : Point3D)
  (s : Point3D_Array) (q : Point3D) (alpha : R) :
  path_along_arc arc_angle axis s [q] alpha
  = path_along_arc arc_angle axis s (repeat q (length s)) alpha.
Proof.
  unfold path_along_arc.
  destruct (Rlt_dec (Rabs arc_angle) STRAIGHT_PATH_THRESHOLD) as [_|_];
    [apply interpolate_single_end|].
  unfold arc_centers, np_sub.
  rewrite broadcast_repeat_l by reflexivity. reflexivity.
Qed.

Lemma spiral_path_single_start (angle : R) (axis p : Point3D)
  (e : Point3D_Array) (alpha : R) :
  spiral_path angle axis [p] e alpha
  = spiral_path angle axis (repeat p (length e)) e alpha.
Proof.
  unfold spiral_path.
  destruct (Rlt_dec (Rabs angle) STRAIGHT_PATH_THRESHOLD) as [_|_];
    [apply interpolate_single_start|].
  unfold np_sub, np_add, np_scale, np_dot.
  rewrite broadcast_repeat_r by reflexivity.
  rewrite broadcast_single_r. simpl.
  rewrite broadcast_repeat_l by lengths. reflexivity.
Qed.

Lemma spiral_path_single_end (angle : R) (axis : Point3D)
  (s : Point3D_Array) (q : Point3D) (alpha : R) :
  spiral_path angle axis s [q] alpha
  = spiral_path angle axis s (repeat q (length s)) alpha.
Proof.
  unfold spiral_path.
  destruct (Rlt_dec (Rabs angle) STRAIGHT_PATH_THRESHOLD) as [_|_];
    [apply interpolate_single_end|].
  unfold np_sub.
  rewrite broadcast_repeat_l by reflexivity. reflexivity.
Qed.

Lemma path_along_circles_single_start (arc_angle : R) (cs : Point3D_Array)
  (axis p : Point3D) (e : Point3D_Array) (alpha : R) :
  path_along_circles arc_angle cs axis [p] e alpha
  = path_along_circles arc_angle cs axis (repeat p (length e)) e alpha.
Proof.
  unfold path_along_circles, np_sub, np_add, np_dot.
  destruct (broadcast vsub e cs) as [d| |] eqn:E1; simpl; auto.
  destruct (broadcast vadd cs _) as [det| |] eqn:E2; simpl; auto.
  apply broadcast_length in E1. apply broadcast_length in E2.
  rewrite length_map in E2.
  assert (H : length det = length e \/ length e = 1%nat) by lia.
  destruct H as [H|H].
  - rewrite <- H, <- interpolate_single_start. reflexivity.
  - rewrite H. reflexivity.
Qed.

Lemma path_along_circles_single_end (arc_angle : R) (cs : Point3D_Array)
  (axis : Point3D) (s : Point3D_Array) (q : Point3D) (alpha : R) :
  path_along_circles arc_angle cs axis s [q] alpha
  = path_along_circles arc_angle cs axis s (repeat q (length s)) alpha.
Proof.
  destruct (Nat.eq_dec (length s) 1) as [H1|H1]; [rewrite H1; reflexivity|].
  destruct (Nat.eq_dec (length cs) (length s)) as [Hc|Hc].
  { unfold path_along_circles, np_sub.
    rewrite broadcast_repeat_l by auto. reflexivity. }
  destruct (Nat.eq_dec (length cs) 1) as [Hc1|Hc1].
  - destruct cs as [|c [|c' cs]]; try discriminate.
    unfold path_along_circles, np_sub, np_add, np_dot.
    rewrite !broadcast_single_r. simpl.
    rewrite !broadcast_single_l. simpl.
    rewrite !map_repeat.
    rewrite <- interpolate_single_end. reflexivity.
  - unfold path_along_circles, np_sub, np_add, np_dot.
    rewrite broadcast_single_l. simpl.
    rewrite broadcast_same by lengths. simpl.
    rewrite interpolate_mismatch by lengths.
    rewrite (broadcast_mismatch vsub (repeat q (length s)) cs) by lengths.
    reflexivity.
Qed.

Lemma stretch_both (f : PathFuncType) (alpha : R) :
  (forall p e, f [p] e alpha = f (repeat p (length e)) e alpha) ->
  (forall s q, f s [q] alpha = f s (repeat q (length s)) alpha) ->
  forall s e, f s e alpha = f (stretch s (length e)) (stretch e (length s)) alpha.
Proof.
  intros Hs He s e.
  destruct s as [|p [|p' s]]; destruct e as [|q [|q' e]]; simpl stretch;
    try reflexivity.
  - apply (He [] q).
  - apply (Hs p []).
  - apply (Hs p (q :: q' :: e)).
  - apply (He (p :: p' :: s) q).
Qed.

(** C5, amended.  Called with collections of different lengths, every path
    function fails at the call with numpy's [ValueError] when neither
    collection has length 1, with nothing truncated or padded; a collection
    of exactly one point is not rejected: the call computes what it computes
    with that point repeated to the length of the other collection. *)
Theorem mismatched_lengths (s e : Point3D_Array) (alpha : R) :
  length s <> length e -> mismatch_law s e alpha.
Proof.
  intros H. unfold mismatch_law, mismatch_outcome.
  repeat split; intros.
  - apply interpolate_mismatch; assumption.
  - apply (stretch_both straight_path alpha).
    + intros; apply interpolate_single_start.
    + intros; apply interpolate_single_end.
  - apply path_along_arc_mismatch; assumption.
  - apply (stretch_both (path_along_arc arc_angle axis) alpha).
    + intros; apply path_along_arc_single_start.
    + intros; apply path_along_arc_single_end.
  - apply path_along_arc_mismatch; assumption.
  - apply (stretch_both clockwise_path alpha).
    + intros; apply path_along_arc_single_start.
    + intros; apply path_along_arc_single_end.
  - apply path_along_arc_mismatch; assumption.
  - apply (stretch_both counterclockwise_path alpha).
    + intros; apply path_along_arc_single_start.
    + intros; apply path_along_arc_single_end.
  - apply spiral_path_mismatch; assumption.
  - apply (stretch_both (spiral_path angle axis) alpha).
    + intros; apply spiral_path_single_start.
    + intros; apply spiral_path_single_end.
  - apply path_along_circles_mismatch; assumption.
  - apply (stretch_both
             (path_along_circles arc_angle circles_centers axis) alpha).
    + intros; apply path_along_circles_single_start.
    + intros; apply path_along_circles_single_end.
Qed.

Lemma mismatched_lengths_witness :
  length [mkP 0 0 0; mkP 1 0 0] <> length [mkP 0 1 0; mkP 1 1 0; mkP 2 1 0] /\
  mismatch_law [mkP 0 0 0; mkP 1 0 0] [mkP 0 1 0; mkP 1 1 0; mkP 2 1 0] 0.5.
Proof.
  assert (H : length [mkP 0 0 0; mkP 1 0 0]
              <> length [mkP 0 1 0; mkP 1 1 0; mkP 2 1 0])
    by (simpl; lia).
  split; [exact H|].
  apply (mismatched_lengths [mkP 0 0 0; mkP 1 0 0]
           [mkP 0 1 0; mkP 1 1 0; mkP 2 1 0] 0.5 H).
Defined.

(** C5 as stated fails: a start collection of one point is repeated against
    an end collection of two points, and the call returns two points. *)
Lemma mismatched_lengths_counterexample :
  length [mkP 0 0 0] <> length [mkP 1 0 0; mkP 0 1 0] /\
  counterclockwise_path [mkP 0 0 0] [mkP 1 0 0; mkP 0 1 0] 0
  = Ok [mkP 0 0 0; mkP 0 0 0].
Proof.
  split; [simpl; lia|].
  unfold counterclockwise_path, path_along_arc.
  destruct (Rlt_dec (Rabs PI) STRAIGHT_PATH_THRESHOLD) as [Hlt|_].
  { exfalso. apply not_small_PI, Hlt. }
  unfold arc_centers, np_sub, np_add, np_scale, np_dot. simpl.
  destruct (Req_dec_T PI PI) as [_|n]; [|exfalso; apply n; reflexivity].
  simpl. rewrite Rmult_0_l, !rotate_zero.
  unfold broadcast; simpl.
  by_coordinates. apply f_equal. f_equal; [|f_equal]; apply point_eq; lra.
Qed.

(** ** C6: small angles *)

(** C6.  For every angle with [|angle| < 0.01], [path_along_arc(angle)] and
    [spiral_path(angle)], with any axis, are the very function
    [straight_path()] returns. *)
Theorem small_angle_is_straight_path (angle : R) (axis : Point3D) :
  Rabs angle < 0.01 ->
  path_along_arc angle axis = straight_path /\
  spiral_path angle axis = straight_path.
Proof.
  intros H. unfold path_along_arc, spiral_path, STRAIGHT_PATH_THRESHOLD.
  destruct (Rlt_dec (Rabs angle) 0.01) as [_|Hn]; [|contradiction].
  split; reflexivity.
Qed.

Lemma small_angle_is_straight_path_witness :
  Rabs 0.005 < 0.01 /\
  path_along_arc 0.005 OUT = straight_path /\
  spiral_path 0.005 OUT = straight_path.
Proof.
  assert (H : Rabs 0.005 < 0.01) by (rewrite Rabs_pos_eq; lra).
  split; [exact H|].
  apply (small_angle_is_straight_path 0.005 OUT H).
Defined.

(** ** C7: straight paths *)

(** C7.  For collections [s], [e] of equal length and every real [alpha],
    also below 0 and above 1, [straight_path()(s, e, alpha)] has the length
    of [s] and its point at every index is [s + alpha * (e - s)], taken
    coordinate by coordinate. *)
Theorem straight_path_formula (s e : Point3D_Array) (alpha : R) :
  length s = length e ->
  exists out,
    straight_path s e alpha = Ok out /\
    length out = length s /\
    forall i, (i < length s)%nat ->
      let p := nth i s ORIGIN in
      let q := nth i e ORIGIN in
      let r := nth i out ORIGIN in
      px r = px p + alpha * (px q - px p) /\
      py r = py p + alpha * (py q - py p) /\
      pz r = pz p + alpha * (pz q - pz p).
Proof.
  intros H. exists (zipWith (lerp alpha) s e). split; [|split].
  - unfold straight_path. apply interpolate_pointwise, H.
  - apply zipWith_length, H.
  - intros i Hi. cbv zeta.
    rewrite (nth_zipWith (lerp alpha) s e i ORIGIN ORIGIN ORIGIN H Hi).
    unfold lerp, vadd, vscale, vsub; simpl. auto.
Qed.

Lemma straight_path_formula_witness :
  length [mkP 0 0 0; mkP 1 1 1] = length [mkP 2 4 6; mkP 1 0 3] /\
  exists out,
    straight_path [mkP 0 0 0; mkP 1 1 1] [mkP 2 4 6; mkP 1 0 3] (-0.5) = Ok out /\
    length out = length [mkP 0 0 0; mkP 1 1 1] /\
    forall i, (i < length [mkP 0 0 0; mkP 1 1 1])%nat ->
      let p := nth i [mkP 0 0 0; mkP 1 1 1] ORIGIN in
      let q := nth i [mkP 2 4 6; mkP 1 0 3] ORIGIN in
      let r := nth i out ORIGIN in
      px r = px p + (-0.5) * (px q - px p) /\
      py r = py p + (-0.5) * (py q - py p) /\
      pz r = pz p + (-0.5) * (pz q - pz p).
Proof.
  split; [reflexivity|].
  apply (straight_path_formula [mkP 0 0 0; mkP 1 1 1] [mkP 2 4 6; mkP 1 0 3]
           (-0.5)).
  reflexivity.
Defined.

(** ** C8: clockwise against counterclockwise *)

(** C8.  For collections [s], [e] of equal length, the outputs of
    [clockwise_path()(s, e, 0.5)] and [counterclockwise_path()(s, e, 0.5)]
    are, index by index, mirror images of each other across the chord from
    [s_i] to [e_i]. *)
Theorem clockwise_mirrors_counterclockwise (s e : Point3D_Array) :
  length s = length e ->
  exists cw ccw,
    clockwise_path s e 0.5 = Ok cw /\
    counterclockwise_path s e 0.5 = Ok ccw /\
    length cw = length s /\
    length ccw = length s /\
    forall i, (i < length s)%nat ->
      let p := nth i s ORIGIN in
      let q := nth i e ORIGIN in
      nth i cw ORIGIN = reflect_across_chord p q (nth i ccw ORIGIN) /\
      nth i ccw ORIGIN = reflect_across_chord p q (nth i cw ORIGIN).
Proof.
  intros H.
  exists (zipWith quarter_turn_back_point s e),
         (zipWith quarter_turn_point s e).
  split; [apply path_along_arc_neg_PI_half, H|].
  split; [apply path_along_arc_PI_half, H|].
  split; [apply zipWith_length, H|].
  split; [apply zipWith_length, H|].
  intros i Hi. cbv zeta.
  rewrite (nth_zipWith quarter_turn_back_point s e i ORIGIN ORIGIN ORIGIN H Hi).
  rewrite (nth_zipWith quarter_turn_point s e i ORIGIN ORIGIN ORIGIN H Hi).
  split; symmetry.
  - apply reflect_quarter_turn.
  - apply reflect_quarter_turn_back.
Qed.

Lemma clockwise_mirrors_counterclockwise_witness :
  length [mkP 0 0 0; mkP 0 0 1] = length [mkP 2 0 2; mkP 2 0 1] /\
  exists cw ccw,
    clockwise_path [mkP 0 0 0; mkP 0 0 1] [mkP 2 0 2; mkP 2 0 1] 0.5 = Ok cw /\
    counterclockwise_path [mkP 0 0 0; mkP 0 0 1] [mkP 2 0 2; mkP 2 0 1] 0.5
    = Ok ccw /\
    length cw = length [mkP 0 0 0; mkP 0 0 1] /\
    length ccw = length [mkP 0 0 0; mkP 0 0 1] /\
    forall i, (i < length [mkP 0 0 0; mkP 0 0 1])%nat ->
      let p := nth i [mkP 0 0 0; mkP 0 0 1] ORIGIN in
      let q := nth i [mkP 2 0 2; mkP 2 0 1] ORIGIN in
      nth i cw ORIGIN = reflect_across_chord p q (nth i ccw ORIGIN) /\
      nth i ccw ORIGIN = reflect_across_chord p q (nth i cw ORIGIN).
Proof.
  split; [reflexivity|].
  apply (clockwise_mirrors_counterclockwise
           [mkP 0 0 0; mkP 0 0 1] [mkP 2 0 2; mkP 2 0 1]).
  reflexivity.
Defined.

(** ** C9: the axis *)

(** C9.  An axis of length zero gives, for [path_along_arc],
    [path_along_circles] and [spiral_path], the same function as the default
    axis [OUT]. *)
Theorem zero_axis_is_default_axis (axis : Point3D) (arc_angle : R)
  (circles_centers : Point3D_Array) :
  norm axis = 0 ->
  path_along_arc arc_angle axis = path_along_arc arc_angle OUT /\
  path_along_circles arc_angle circles_centers axis
  = path_along_circles arc_angle circles_centers OUT /\
  spiral_path arc_angle axis = spiral_path arc_angle OUT.
Proof.
  intros Hz.
  assert (Hn : normalize axis OUT = normalize OUT OUT).
  { rewrite normalize_OUT. unfold normalize. rewrite Hz.
    destruct (Rlt_dec 0 0) as [H|_]; [exfalso; lra|reflexivity]. }
  unfold path_along_arc, path_along_circles, spiral_path.
  rewrite Hn. repeat split; reflexivity.
Qed.

Lemma zero_axis_is_default_axis_witness :
  norm (mkP 0 0 0) = 0 /\
  path_along_arc PI (mkP 0 0 0) = path_along_arc PI OUT /\
  path_along_circles PI [mkP 1 2 3] (mkP 0 0 0)
  = path_along_circles PI [mkP 1 2 3] OUT /\
  spiral_path PI (mkP 0 0 0) = spiral_path PI OUT.
Proof.
  split; [exact norm_ORIGIN|].
  apply (zero_axis_is_default_axis (mkP 0 0 0) PI [mkP 1 2 3] norm_ORIGIN).
Defined.

(** ** C10: the radius of an arc *)

(** C10.  For [|arc_angle| >= 0.01], whenever the centres computed inside
    [path_along_arc]'s closure are defined, the closure returns a collection
    in which every point is as far from its centre as the start point is:
    each point moves on a circle about its centre, for every real [alpha]. *)
Theorem path_along_arc_constant_radius (arc_angle : R) (axis : Point3D)
  (s e centers : Point3D_Array) (alpha : R) :
  length s = length e ->
  Rabs arc_angle >= 0.01 ->
  arc_centers arc_angle (normalize axis OUT) s e = Ok centers ->
  exists out,
    path_along_arc arc_angle axis s e alpha = Ok out /\
    length out = length s /\
    forall i, (i < length s)%nat ->
      norm (vsub (nth i out ORIGIN) (nth i centers ORIGIN))
      = norm (vsub (nth i s ORIGIN) (nth i centers ORIGIN)).
Proof.
  intros H Hbig Hc.
  assert (Hl : length centers = length s)
    by (eapply arc_centers_length; eauto).
  assert (Hbig' : ~ Rabs arc_angle < STRAIGHT_PATH_THRESHOLD)
    by (unfold STRAIGHT_PATH_THRESHOLD; lra).
  eexists. split; [|split].
  - apply path_along_arc_about; eauto.
  - rewrite zipWith_length; auto.
  - intros i Hi.
    rewrite (nth_zipWith _ centers s i ORIGIN ORIGIN ORIGIN Hl)
      by (rewrite Hl; exact Hi).
    apply orbit_radius, normalize_unit.
Qed.

Lemma path_along_arc_constant_radius_witness :
  length [mkP 0 0 0] = length [mkP 2 0 0] /\
  Rabs PI >= 0.01 /\
  arc_centers PI (normalize OUT OUT) [mkP 0 0 0] [mkP 2 0 0] = Ok [mkP 1 0 0] /\
  exists out,
    path_along_arc PI OUT [mkP 0 0 0] [mkP 2 0 0] 0.25 = Ok out /\
    length out = length [mkP 0 0 0] /\
    forall i, (i < length [mkP 0 0 0])%nat ->
      norm (vsub (nth i out ORIGIN) (nth i [mkP 1 0 0] ORIGIN))
      = norm (vsub (nth i [mkP 0 0 0] ORIGIN) (nth i [mkP 1 0 0] ORIGIN)).
Proof.
  assert (H1 : length [mkP 0 0 0] = length [mkP 2 0 0]) by reflexivity.
  assert (H2 : Rabs PI >= 0.01)
    by (rewrite Rabs_PI; pose proof PI_gt_3; lra).
  assert (H3 : arc_centers PI (normalize OUT OUT) [mkP 0 0 0] [mkP 2 0 0]
               = Ok [mkP 1 0 0]).
  { unfold arc_centers; simpl.
    destruct (Req_dec_T PI PI) as [_|n]; [|exfalso; apply n; reflexivity].
    unfold vadd, vscale, vsub; simpl.
    f_equal. f_equal. apply point_eq; lra. }
  split; [exact H1|]. split; [exact H2|]. split; [exact H3|].
  apply (path_along_arc_constant_radius PI OUT [mkP 0 0 0] [mkP 2 0 0]
           [mkP 1 0 0] 0.25 H1 H2 H3).
Defined.

(** * Further properties of the path functions *)

Lemma zipWith_map_both {A B C : Type} (f : B -> B -> C) (g : A -> B)
  (h : A -> A -> C) (a b : list A) :
  (forall x y, f (g x) (g y) = h x y) ->
  zipWith f (map g a) (map g b) = zipWith h a b.
Proof.
  intros H. revert b; induction a as [|x a IH]; intros [|y b]; simpl; auto.
  rewrite H, IH. reflexivity.
Qed.

Lemma vsub_shift (t p q : Point3D) : vsub (vadd p t) (vadd q t) = vsub p q.
Proof. by_coordinates. apply point_eq; ring. Qed.

Lemma vadd_shift_l (t p q : Point3D) : vadd (vadd p t) q = vadd (vadd p q) t.
Proof. by_coordinates. apply point_eq; ring. Qed.

(** Differences do not see a common translation. *)
Lemma broadcast_vsub_shift (t : Point3D) (a b : Point3D_Array) :
  broadcast vsub (shift t a) (shift t b) = broadcast vsub a b.
Proof.
  unfold broadcast, shift. rewrite !length_map.
  destruct (Nat.eqb (length a) (length b)).
  - apply f_equal. apply zipWith_map_both. intros; apply vsub_shift.
  - destruct a as [|x [|x' a]]; destruct b as [|y [|y' b]]; simpl;
      rewrite ?map_map; try reflexivity; apply f_equal;
      repeat (apply (f_equal2 (@cons Point3D)); [apply vsub_shift|]);
      try reflexivity; apply map_ext; intros; apply vsub_shift.
Qed.

(** A sum moves with its first operand. *)
Lemma broadcast_vadd_shift (t : Point3D) (a b : Point3D_Array) :
  broadcast vadd (shift t a) b = result_map (shift t) (broadcast vadd a b).
Proof.
  unfold broadcast, shift. rewrite !length_map.
  destruct (Nat.eqb (length a) (length b)).
  - simpl. apply f_equal. revert b; induction a as [|x a IH]; intros [|y b];
      simpl; auto. rewrite vadd_shift_l, IH. reflexivity.
  - destruct a as [|x [|x' a]]; destruct b as [|y [|y' b]]; simpl;
      rewrite ?map_map; try reflexivity; apply f_equal;
      repeat (apply (f_equal2 (@cons Point3D)); [apply vadd_shift_l|]);
      try reflexivity; apply map_ext; intros; apply vadd_shift_l.
Qed.

Lemma interpolate_shift (t : Point3D) (s e : Point3D_Array) (alpha : R) :
  interpolate (shift t s) (shift t e) alpha
  = result_map (shift t) (interpolate s e alpha).
Proof.
  unfold interpolate, np_sub, np_add.
  rewrite broadcast_vsub_shift.
  destruct (broadcast vsub e s) as [d| |]; simpl; auto.
  apply broadcast_vadd_shift.
Qed.

Lemma arc_centers_shift (arc_angle : R) (u t : Point3D) (s e : Point3D_Array) :
  arc_centers arc_angle u (shift t s) (shift t e)
  = result_map (shift t) (arc_centers arc_angle u s e).
Proof.
  unfold arc_centers, np_sub, np_add.
  rewrite broadcast_vsub_shift.
  destruct (broadcast vsub e s) as [vects| |]; simpl; auto.
  rewrite broadcast_vadd_shift.
  destruct (broadcast vadd s _) as [centers| |]; simpl; auto.
  destruct (Req_dec_T arc_angle PI) as [_|_]; simpl; auto.
  destruct (np_div _ _) as [off| |]; simpl; auto.
  apply broadcast_vadd_shift.
Qed.

Lemma path_along_arc_shift (arc_angle : R) (axis t : Point3D)
  (s e : Point3D_Array) (alpha : R) :
  path_along_arc arc_angle axis (shift t s) (shift t e) alpha
  = result_map (shift t) (path_along_arc arc_angle axis s e alpha).
Proof.
  unfold path_along_arc.
  destruct (Rlt_dec (Rabs arc_angle) STRAIGHT_PATH_THRESHOLD) as [_|_];
    [apply interpolate_shift|].
  rewrite arc_centers_shift.
  destruct (arc_centers _ _ s e) as [centers| |]; simpl; auto.
  unfold np_sub, np_add. rewrite broadcast_vsub_shift.
  destruct (broadcast vsub s centers) as [r| |]; simpl; auto.
  apply broadcast_vadd_shift.
Qed.

Lemma spiral_path_shift (angle : R) (axis t : Point3D)
  (s e : Point3D_Array) (alpha : R) :
  spiral_path angle axis (shift t s) (shift t e) alpha
  = result_map (shift t) (spiral_path angle axis s e alpha).
Proof.
  unfold spiral_path.
  destruct (Rlt_dec (Rabs angle) STRAIGHT_PATH_THRESHOLD) as [_|_];
    [apply interpolate_shift|].
  unfold np_sub, np_add. rewrite broadcast_vsub_shift.
  destruct (broadcast vsub e s) as [d| |]; simpl; auto.
  apply broadcast_vadd_shift.
Qed.

Lemma path_along_circles_shift (arc_angle : R) (cs : Point3D_Array)
  (axis t : Point3D) (s e : Point3D_Array) (alpha : R) :
  path_along_circles arc_angle (shift t cs) axis (shift t s) (shift t e) alpha
  = result_map (shift t) (path_along_circles arc_angle cs axis s e alpha).
Proof.
  unfold path_along_circles, np_sub, np_add.
  rewrite broadcast_vsub_shift.
  destruct (broadcast vsub e cs) as [d| |]; simpl; auto.
  rewrite broadcast_vadd_shift.
  destruct (broadcast vadd cs _) as [det| |]; simpl; auto.
  rewrite interpolate_shift.
  destruct (interpolate s det alpha) as [i| |]; simpl; auto.
  rewrite broadcast_vsub_shift.
  destruct (broadcast vsub i cs) as [r| |]; simpl; auto.
  apply broadcast_vadd_shift.
Qed.

(** X1.  Moving every start point and every end point (and, for
    [path_along_circles], every centre) by the same vector [t] moves every
    point of the result by [t], and changes nothing else: a call that fails
    still fails in the same way. *)
Theorem paths_follow_translation (t : Point3D) (s e : Point3D_Array)
  (alpha : R) :
  straight_path (shift t s) (shift t e) alpha
  = result_map (shift t) (straight_path s e alpha)
  /\ (forall arc_angle axis,
         path_along_arc arc_angle axis (shift t s) (shift t e) alpha
         = result_map (shift t) (path_along_arc arc_angle axis s e alpha))
  /\ (forall angle axis,
         spiral_path angle axis (shift t s) (shift t e) alpha
         = result_map (shift t) (spiral_path angle axis s e alpha))
  /\ (forall arc_angle circles_centers axis,
         path_along_circles arc_angle (shift t circles_centers) axis
           (shift t s) (shift t e) alpha
         = result_map (shift t)
             (path_along_circles arc_angle circles_centers axis s e alpha)).
Proof.
  repeat split; intros.
  - apply interpolate_shift.
  - apply path_along_arc_shift.
  - apply spiral_path_shift.
  - apply path_along_circles_shift.
Qed.

(** ** The centre of an arc *)

Lemma arc_centers_singular (arc_angle : R) (u p q : Point3D)
  (s e : Point3D_Array) :
  length s = length e -> sin (arc_angle / 2) = 0 ->
  arc_centers arc_angle u (p :: s) (q :: e) = NonFinite.
Proof.
  intros H Hs. unfold arc_centers, np_sub, np_add, np_scale, np_cross, np_halve.
  rewrite broadcast_same by (simpl; lia). cbn [bind].
  rewrite broadcast_same by lengths. cbn [bind].
  destruct (Req_dec_T arc_angle PI) as [Hpi|_].
  - exfalso. rewrite Hpi, sin_PI2 in Hs. lra.
  - simpl zipWith. simpl map. rewrite np_div_tan_zero by exact Hs.
    reflexivity.
Qed.

(** The centres the closure computes, whenever it computes them. *)
Lemma arc_centers_value (arc_angle : R) (u : Point3D)
  (s e centers : Point3D_Array) :
  length s = length e -> arc_centers arc_angle u s e = Ok centers ->
  centers = zipWith (arc_center arc_angle u) s e.
Proof.
  intros H Hc.
  destruct (Req_dec_T (sin (arc_angle / 2)) 0) as [Hs|Hs].
  - destruct s as [|p s]; destruct e as [|q e]; try discriminate.
    + unfold arc_centers, np_sub, np_add, broadcast in Hc; simpl in Hc.
      destruct (Req_dec_T arc_angle PI); simpl in Hc;
        injection Hc as <-; reflexivity.
    + rewrite arc_centers_singular in Hc by (simpl in H; lia || assumption).
      discriminate.
  - rewrite arc_centers_pointwise in Hc by assumption. congruence.
Qed.

Lemma arc_center_equidistant (arc_angle : R) (u s e : Point3D) :
  dot (vsub s (arc_center arc_angle u s e)) (vsub s (arc_center arc_angle u s e))
  = dot (vsub e (arc_center arc_angle u s e))
        (vsub e (arc_center arc_angle u s e)).
Proof.
  unfold arc_center.
  generalize (cos (arc_angle / 2) / sin (arc_angle / 2)) as k. intros k.
  replace 0.5 with (/ 2) by lra.
  by_coordinates. unfold Rdiv. field.
Qed.

(** X2.  Whatever the arc angle and the axis, each centre that
    [path_along_arc]'s closure computes is as far from the start point as
    from the end point of its pair. *)
Theorem arc_center_between_start_and_end (arc_angle : R) (axis : Point3D)
  (s e centers : Point3D_Array) :
  length s = length e ->
  arc_centers arc_angle (normalize axis OUT) s e = Ok centers ->
  length centers = length s /\
  forall i, (i < length s)%nat ->
    norm (vsub (nth i s ORIGIN) (nth i centers ORIGIN))
    = norm (vsub (nth i e ORIGIN) (nth i centers ORIGIN)).
Proof.
  intros H Hc. split; [eapply arc_centers_length; eauto|].
  intros i Hi. apply arc_centers_value in Hc; [|exact H]. subst centers.
  rewrite (nth_zipWith _ s e i ORIGIN ORIGIN ORIGIN H Hi).
  unfold norm. f_equal. apply arc_center_equidistant.
Qed.

Lemma cot_PI4 : cos (PI / 4) / sin (PI / 4) = 1.
Proof.
  rewrite cos_PI4, sin_PI4. field. apply sqrt2_neq_0.
Qed.

Lemma sin_PI4_neq_0 : sin (PI / 4) <> 0.
Proof.
  intros E. pose proof cot_PI4 as H. rewrite E in H.
  unfold Rdiv in H. rewrite Rinv_0, Rmult_0_r in H. lra.
Qed.

Lemma arc_centers_example :
  arc_centers (PI / 2) (normalize OUT OUT) [mkP 0 0 0] [mkP 2 0 3]
  = Ok [mkP 1 1 (3 / 2)].
Proof.
  assert (E : PI / 2 / 2 = PI / 4) by field.
  rewrite arc_centers_pointwise.
  - simpl. rewrite normalize_OUT. unfold arc_center.
    rewrite E, cot_PI4. by_coordinates.
    apply f_equal. apply (f_equal2 (@cons Point3D)); [|reflexivity].
    apply point_eq; lra.
  - reflexivity.
  - rewrite E. apply sin_PI4_neq_0.
Qed.

Lemma arc_center_between_start_and_end_witness :
  length [mkP 0 0 0] = length [mkP 2 0 3] /\
  arc_centers (PI / 2) (normalize OUT OUT) [mkP 0 0 0] [mkP 2 0 3]
  = Ok [mkP 1 1 (3 / 2)] /\
  length [mkP 1 1 (3 / 2)] = length [mkP 0 0 0] /\
  forall i, (i < length [mkP 0 0 0])%nat ->
    norm (vsub (nth i [mkP 0 0 0] ORIGIN) (nth i [mkP 1 1 (3 / 2)] ORIGIN))
    = norm (vsub (nth i [mkP 2 0 3] ORIGIN) (nth i [mkP 1 1 (3 / 2)] ORIGIN)).
Proof.
  split; [reflexivity|]. split; [exact arc_centers_example|].
  apply (arc_center_between_start_and_end (PI / 2) OUT
           [mkP 0 0 0] [mkP 2 0 3] [mkP 1 1 (3 / 2)]
           eq_refl arc_centers_example).
Defined.

(** ** What a rotation about the unit axis leaves alone *)

Section UnitAxisMore.

Variable u : Point3D.
Hypothesis u_unit : dot u u = 1.

Ltac fresh_axis := generalize u_unit; generalize u; clear u u_unit; intros u Hu.

(** A rotation keeps the component along its axis. *)
Lemma rotate_axis_dot (a : R) (v : Point3D) :
  dot u (rotate a u v) = dot u v.
Proof.
  fresh_axis. unfold rotate. rewrite rotate_formula.
  generalize (cos a) as c, (sin a) as k. intros c k.
  by_coordinates. nsatz.
Qed.

(** Two rotations about the same axis add their angles. *)
Lemma rotate_add (a b : R) (v : Point3D) :
  rotate a u (rotate b u v) = rotate (a + b) u v.
Proof.
  fresh_axis. unfold rotate. rewrite !rotate_formula, cos_plus, sin_plus.
  generalize (cos a) as ca, (sin a) as sa, (cos b) as cb, (sin b) as sb.
  intros ca sa cb sb.
  by_coordinates. apply point_eq; nsatz.
Qed.

End UnitAxisMore.

Lemma dot_vadd_r (u p q : Point3D) : dot u (vadd p q) = dot u p + dot u q.
Proof. by_coordinates. ring. Qed.

Lemma dot_vsub_r (u p q : Point3D) : dot u (vsub p q) = dot u p - dot u q.
Proof. by_coordinates. ring. Qed.

Lemma orbit_axis_component (a : R) (u c p : Point3D) :
  dot u u = 1 -> dot u (vadd c (rotate a u (vsub p c))) = dot u p.
Proof.
  intros Hu. rewrite dot_vadd_r, rotate_axis_dot, dot_vsub_r by exact Hu. ring.
Qed.

(** X3.  For [|arc_angle| >= 0.01], wherever [path_along_arc]'s closure has a
    value, every output point has the component along the unit axis that its
    start point has, for every real [alpha]: the arc never moves a point
    along the axis. *)
Theorem path_along_arc_keeps_axis_component (arc_angle : R) (axis : Point3D)
  (s e out : Point3D_Array) (alpha : R) :
  length s = length e ->
  Rabs arc_angle >= 0.01 ->
  path_along_arc arc_angle axis s e alpha = Ok out ->
  length out = length s /\
  forall i, (i < length s)%nat ->
    dot (normalize axis OUT) (nth i out ORIGIN)
    = dot (normalize axis OUT) (nth i s ORIGIN).
Proof.
  intros H Hbig Hout.
  assert (Hbig' : ~ Rabs arc_angle < STRAIGHT_PATH_THRESHOLD)
    by (unfold STRAIGHT_PATH_THRESHOLD; lra).
  destruct (arc_centers arc_angle (normalize axis OUT) s e) as [centers| |]
    eqn:Hc.
  - assert (Hl : length centers = length s)
      by (eapply arc_centers_length; eauto).
    rewrite (path_along_arc_about arc_angle axis s e centers alpha Hbig' Hc Hl)
      in Hout.
    injection Hout as <-. split; [rewrite zipWith_length; auto|].
    intros i Hi.
    rewrite (nth_zipWith _ centers s i ORIGIN ORIGIN ORIGIN Hl)
      by (rewrite Hl; exact Hi).
    apply orbit_axis_component, normalize_unit.
  - exfalso. unfold path_along_arc in Hout.
    destruct (Rlt_dec (Rabs arc_angle) STRAIGHT_PATH_THRESHOLD);
      [contradiction|]. rewrite Hc in Hout. discriminate.
  - exfalso. unfold path_along_arc in Hout.
    destruct (Rlt_dec (Rabs arc_angle) STRAIGHT_PATH_THRESHOLD);
      [contradiction|]. rewrite Hc in Hout. discriminate.
Qed.

Lemma path_along_arc_keeps_axis_component_witness :
  length [mkP 0 0 0] = length [mkP 0 0 1] /\
  Rabs PI >= 0.01 /\
  path_along_arc PI OUT [mkP 0 0 0] [mkP 0 0 1] 1 = Ok [mkP 0 0 0] /\
  length [mkP 0 0 0] = length [mkP 0 0 0] /\
  forall i, (i < length [mkP 0 0 0])%nat ->
    dot (normalize OUT OUT) (nth i [mkP 0 0 0] ORIGIN)
    = dot (normalize OUT OUT) (nth i [mkP 0 0 0] ORIGIN).
Proof.
  assert (H2 : Rabs PI >= 0.01)
    by (rewrite Rabs_PI; pose proof PI_gt_3; lra).
  split; [reflexivity|]. split; [exact H2|].
  split; [exact counterclockwise_vertical_chord|].
  apply (path_along_arc_keeps_axis_component PI OUT [mkP 0 0 0] [mkP 0 0 1]
           [mkP 0 0 0] 1 eq_refl H2 counterclockwise_vertical_chord).
Defined.

(** ** Spirals *)

Lemma norm_vscale (a : R) (v : Point3D) : norm (vscale a v) = Rabs a * norm v.
Proof.
  unfold norm.
  replace (dot (vscale a v) (vscale a v)) with (Rsqr a * dot v v)
    by (unfold Rsqr; by_coordinates; ring).
  rewrite sqrt_mult; [|apply Rle_0_sqr|apply dot_self_nonneg].
  rewrite sqrt_Rsqr_abs. reflexivity.
Qed.

Lemma lerp_distance (alpha : R) (s e : Point3D) :
  norm (vsub (lerp alpha s e) s) = Rabs alpha * norm (vsub e s).
Proof.
  rewrite <- norm_vscale. f_equal. unfold lerp.
  by_coordinates. apply point_eq; ring.
Qed.

Lemma spiral_point_distance (angle : R) (u : Point3D) (alpha : R)
  (s e : Point3D) :
  dot u u = 1 ->
  norm (vsub (spiral_point angle u alpha s e) s) = Rabs alpha * norm (vsub e s).
Proof.
  intros Hu. unfold spiral_point.
  replace (norm (vsub e s))
    with (norm (rotate ((alpha - 1) * angle) u (vsub e s)))
    by (unfold norm; f_equal; apply rotate_dot, Hu).
  rewrite <- norm_vscale. f_equal.
  generalize (rotate ((alpha - 1) * angle) u (vsub e s)) as r. intros r.
  by_coordinates. apply point_eq; ring.
Qed.

(** X4.  For every angle, axis and real [alpha], [spiral_path] puts each
    point at the distance [|alpha|] times the length of its chord from its
    start point: the radius of the spiral grows linearly in [alpha]. *)
Theorem spiral_path_radius (angle : R) (axis : Point3D)
  (s e : Point3D_Array) (alpha : R) :
  length s = length e ->
  exists out,
    spiral_path angle axis s e alpha = Ok out /\
    length out = length s /\
    forall i, (i < length s)%nat ->
      norm (vsub (nth i out ORIGIN) (nth i s ORIGIN))
      = Rabs alpha * norm (vsub (nth i e ORIGIN) (nth i s ORIGIN)).
Proof.
  intros H. eexists. split; [apply spiral_path_law, H|].
  split; [apply zipWith_length, H|].
  intros i Hi.
  rewrite (nth_zipWith _ s e i ORIGIN ORIGIN ORIGIN H Hi).
  unfold spiral_law. destruct (Rlt_dec _ _).
  - apply lerp_distance.
  - apply spiral_point_distance, normalize_unit.
Qed.

Lemma spiral_path_radius_witness :
  length [mkP 0 0 0; mkP 1 1 1] = length [mkP 2 0 0; mkP 0 3 1] /\
  exists out,
    spiral_path (2 * PI) OUT [mkP 0 0 0; mkP 1 1 1] [mkP 2 0 0; mkP 0 3 1] 0.25
    = Ok out /\
    length out = length [mkP 0 0 0; mkP 1 1 1] /\
    forall i, (i < length [mkP 0 0 0; mkP 1 1 1])%nat ->
      norm (vsub (nth i out ORIGIN) (nth i [mkP 0 0 0; mkP 1 1 1] ORIGIN))
      = Rabs 0.25
        * norm (vsub (nth i [mkP 2 0 0; mkP 0 3 1] ORIGIN)
                  (nth i [mkP 0 0 0; mkP 1 1 1] ORIGIN)).
Proof.
  split; [reflexivity|].
  apply (spiral_path_radius (2 * PI) OUT [mkP 0 0 0; mkP 1 1 1]
           [mkP 2 0 0; mkP 0 3 1] 0.25 eq_refl).
Defined.

(** ** Orbits about given centres *)

Lemma zipWith3_repeat {A B C D : Type} (f : A -> B -> C -> D) (x : A)
  (b : list B) (c : list C) :
  zipWith3 f (repeat x (length b)) b c = zipWith (f x) b c.
Proof.
  revert c; induction b as [|y b IH]; intros [|z c]; simpl; auto.
  now rewrite IH.
Qed.

Lemma nth_zipWith3 {A B C D : Type} (f : A -> B -> C -> D)
  (a : list A) (b : list B) (c : list C) (i : nat)
  (da : A) (db : B) (dc : C) (dd : D) :
  length a = length b -> length b = length c -> (i < length b)%nat ->
  nth i (zipWith3 f a b c) dd = f (nth i a da) (nth i b db) (nth i c dc).
Proof.
  revert b c i; induction a as [|x a IH]; intros [|y b] [|z c] i H1 H2 Hi;
    simpl in *; try discriminate; try lia.
  destruct i; auto. apply IH; lia.
Qed.

Lemma stretch_length (cs : Point3D_Array) (n : nat) :
  centers_fit cs n -> length (stretch cs n) = n.
Proof.
  intros [H|H]; destruct cs as [|c [|c' cs]]; simpl in *;
    rewrite ?repeat_length; auto; discriminate.
Qed.

(** With centres that fit, the closure of [path_along_circles] computes the
    law of one point at every index, each point about its own centre. *)
Lemma path_along_circles_law (arc_angle : R) (cs : Point3D_Array)
  (axis : Point3D) (s e : Point3D_Array) (alpha : R) :
  length s = length e -> centers_fit cs (length s) ->
  path_along_circles arc_angle cs axis s e alpha
  = Ok (zipWith3 (circle_point arc_angle (normalize axis OUT) alpha)
          (stretch cs (length s)) s e).
Proof.
  intros H Hfit.
  destruct cs as [|c [|c' cs]].
  - destruct Hfit as [Hc|Hc]; [|discriminate].
    simpl stretch. apply path_along_circles_each; auto.
  - simpl stretch. rewrite zipWith3_repeat.
    apply path_along_circles_single, H.
  - destruct Hfit as [Hc|Hc]; [|discriminate].
    simpl stretch. apply path_along_circles_each; auto.
Qed.

Lemma circle_point_axis_component (arc_angle : R) (u : Point3D) (alpha : R)
  (c s e : Point3D) :
  dot u u = 1 ->
  dot u (circle_point arc_angle u alpha c s e)
  = (1 - alpha) * dot u s + alpha * dot u e.
Proof.
  intros Hu. unfold circle_point.
  rewrite orbit_axis_component by exact Hu.
  unfold lerp. rewrite !dot_vadd_r.
  replace (dot u (vscale alpha
                    (vsub (vadd c (rotate (- arc_angle) u (vsub e c))) s)))
    with (alpha * (dot u (vadd c (rotate (- arc_angle) u (vsub e c)))
                   - dot u s))
    by (generalize (vadd c (rotate (- arc_angle) u (vsub e c))) as d;
        intros d; clear; by_coordinates; ring).
  rewrite orbit_axis_component by exact Hu. ring.
Qed.

(** X5.  Along the unit axis [path_along_circles] moves every point
    linearly: the axis component of an output point is
    [(1 - alpha) * start + alpha * end] of the axis components of its pair,
    whatever the arc angle and the centres. *)
Theorem path_along_circles_axis_component (arc_angle : R)
  (circles_centers : Point3D_Array) (axis : Point3D) (s e : Point3D_Array)
  (alpha : R) :
  length s = length e -> centers_fit circles_centers (length s) ->
  exists out,
    path_along_circles arc_angle circles_centers axis s e alpha = Ok out /\
    length out = length s /\
    forall i, (i < length s)%nat ->
      dot (normalize axis OUT) (nth i out ORIGIN)
      = (1 - alpha) * dot (normalize axis OUT) (nth i s ORIGIN)
        + alpha * dot (normalize axis OUT) (nth i e ORIGIN).
Proof.
  intros H Hfit. pose proof (stretch_length _ _ Hfit) as Hl.
  eexists. split; [apply path_along_circles_law; assumption|].
  split; [apply zipWith3_length; auto|].
  intros i Hi.
  rewrite (nth_zipWith3 _ _ s e i ORIGIN ORIGIN ORIGIN ORIGIN Hl H Hi).
  apply circle_point_axis_component, normalize_unit.
Qed.

Lemma path_along_circles_axis_component_witness :
  length [mkP 1 0 0; mkP 0 1 2] = length [mkP 0 2 5; mkP 1 1 1] /\
  centers_fit [mkP 3 0 0] (length [mkP 1 0 0; mkP 0 1 2]) /\
  exists out,
    path_along_circles (2 * PI) [mkP 3 0 0] OUT
      [mkP 1 0 0; mkP 0 1 2] [mkP 0 2 5; mkP 1 1 1] 0.5 = Ok out /\
    length out = length [mkP 1 0 0; mkP 0 1 2] /\
    forall i, (i < length [mkP 1 0 0; mkP 0 1 2])%nat ->
      dot (normalize OUT OUT) (nth i out ORIGIN)
      = (1 - 0.5) * dot (normalize OUT OUT) (nth i [mkP 1 0 0; mkP 0 1 2] ORIGIN)
        + 0.5 * dot (normalize OUT OUT) (nth i [mkP 0 2 5; mkP 1 1 1] ORIGIN).
Proof.
  assert (Hfit : centers_fit [mkP 3 0 0] (length [mkP 1 0 0; mkP 0 1 2]))
    by (right; reflexivity).
  split; [reflexivity|]. split; [exact Hfit|].
  apply (path_along_circles_axis_component (2 * PI) [mkP 3 0 0] OUT
           [mkP 1 0 0; mkP 0 1 2] [mkP 0 2 5; mkP 1 1 1] 0.5 eq_refl Hfit).
Defined.

Lemma circle_point_orbit (arc_angle : R) (u : Point3D) (alpha : R)
  (c s e : Point3D) :
  dot u u = 1 -> e = vadd c (rotate arc_angle u (vsub s c)) ->
  circle_point arc_angle u alpha c s e
  = vadd c (rotate (alpha * arc_angle) u (vsub s c)).
Proof.
  intros Hu He. unfold circle_point.
  replace (vadd c (rotate (- arc_angle) u (vsub e c))) with s.
  - rewrite lerp_same. reflexivity.
  - subst e.
    replace (vsub (vadd c (rotate arc_angle u (vsub s c))) c)
      with (rotate arc_angle u (vsub s c))
      by (generalize (rotate arc_angle u (vsub s c)) as r; intros r;
          by_coordinates; apply point_eq; ring).
    rewrite rotate_add by exact Hu.
    replace (- arc_angle + arc_angle) with 0 by ring. rewrite rotate_0.
    by_coordinates. apply point_eq; ring.
Qed.

(** X6.  When every end point is its start point turned by [arc_angle]
    about its centre, [path_along_circles] turns the start point by
    [alpha * arc_angle] about that centre: the point stays on its circle, at
    the distance from the centre at which it started. *)
Theorem path_along_circles_true_orbit (arc_angle : R)
  (circles_centers : Point3D_Array) (axis : Point3D) (s e : Point3D_Array)
  (alpha : R) :
  length s = length e -> centers_fit circles_centers (length s) ->
  (forall i, (i < length s)%nat ->
     nth i e ORIGIN
     = vadd (nth i (stretch circles_centers (length s)) ORIGIN)
         (rotate arc_angle (normalize axis OUT)
            (vsub (nth i s ORIGIN)
               (nth i (stretch circles_centers (length s)) ORIGIN)))) ->
  exists out,
    path_along_circles arc_angle circles_centers axis s e alpha = Ok out /\
    length out = length s /\
    forall i, (i < length s)%nat ->
      let c := nth i (stretch circles_centers (length s)) ORIGIN in
      nth i out ORIGIN
      = vadd c (rotate (alpha * arc_angle) (normalize axis OUT)
                  (vsub (nth i s ORIGIN) c))
      /\ norm (vsub (nth i out ORIGIN) c) = norm (vsub (nth i s ORIGIN) c).
Proof.
  intros H Hfit He. pose proof (stretch_length _ _ Hfit) as Hl.
  eexists. split; [apply path_along_circles_law; assumption|].
  split; [apply zipWith3_length; auto|].
  intros i Hi. cbv zeta.
  rewrite (nth_zipWith3 _ _ s e i ORIGIN ORIGIN ORIGIN ORIGIN Hl H Hi).
  rewrite (circle_point_orbit _ _ _ _ _ _ (normalize_unit axis) (He i Hi)).
  split; [reflexivity|]. apply orbit_radius, normalize_unit.
Qed.

Lemma half_turn_example :
  forall i, (i < length [mkP 1 0 0])%nat ->
    nth i [mkP (-1) 0 0] ORIGIN
    = vadd (nth i (stretch [mkP 0 0 0] (length [mkP 1 0 0])) ORIGIN)
        (rotate PI (normalize OUT OUT)
           (vsub (nth i [mkP 1 0 0] ORIGIN)
              (nth i (stretch [mkP 0 0 0] (length [mkP 1 0 0])) ORIGIN))).
Proof.
  intros i Hi. destruct i; [|simpl in Hi; lia]. simpl.
  rewrite normalize_OUT. unfold rotate.
  rewrite rotate_formula, cos_PI, sin_PI.
  by_coordinates. apply point_eq; lra.
Qed.

Lemma path_along_circles_true_orbit_witness :
  length [mkP 1 0 0] = length [mkP (-1) 0 0] /\
  centers_fit [mkP 0 0 0] (length [mkP 1 0 0]) /\
  exists out,
    path_along_circles PI [mkP 0 0 0] OUT [mkP 1 0 0] [mkP (-1) 0 0] 0.5
    = Ok out /\
    length out = length [mkP 1 0 0] /\
    forall i, (i < length [mkP 1 0 0])%nat ->
      let c := nth i (stretch [mkP 0 0 0] (length [mkP 1 0 0])) ORIGIN in
      nth i out ORIGIN
      = vadd c (rotate (0.5 * PI) (normalize OUT OUT)
                  (vsub (nth i [mkP 1 0 0] ORIGIN) c))
      /\ norm (vsub (nth i out ORIGIN) c)
         = norm (vsub (nth i [mkP 1 0 0] ORIGIN) c).
Proof.
  assert (Hfit : centers_fit [mkP 0 0 0] (length [mkP 1 0 0]))
    by (left; reflexivity).
  split; [reflexivity|]. split; [exact Hfit|].
  apply (path_along_circles_true_orbit PI [mkP 0 0 0] OUT [mkP 1 0 0]
           [mkP (-1) 0 0] 0.5 eq_refl Hfit half_turn_example).
Defined.

(** ** An arc run backwards *)

Lemma regular_opp (arc_angle : R) :
  arc_angle_regular arc_angle -> arc_angle_regular (- arc_angle).
Proof.
  unfold arc_angle_regular. rewrite Rabs_Ropp.
  replace (- arc_angle / 2) with (- (arc_angle / 2)) by field.
  rewrite sin_neg. intros [H|H]; [left; exact H|right; lra].
Qed.

Lemma arc_center_reversed (arc_angle : R) (u s e : Point3D) :
  sin (arc_angle / 2) <> 0 ->
  arc_center (- arc_angle) u e s = arc_center arc_angle u s e.
Proof.
  intros Hs. unfold arc_center.
  replace (- arc_angle / 2) with (- (arc_angle / 2)) by field.
  rewrite cos_neg, sin_neg.
  generalize dependent (sin (arc_angle / 2)). intros k Hk.
  generalize (cos (arc_angle / 2)) as c. intros c.
  replace 0.5 with (/ 2) by lra.
  by_coordinates. apply point_eq; field; exact Hk.
Qed.

Lemma arc_point_reversed (arc_angle : R) (u : Point3D) (alpha : R)
  (s e : Point3D) :
  dot u u = 1 -> dot u (vsub e s) = 0 -> sin (arc_angle / 2) <> 0 ->
  arc_point (- arc_angle) u (1 - alpha) e s = arc_point arc_angle u alpha s e.
Proof.
  intros Hu Hp Hs. unfold arc_point.
  rewrite arc_center_reversed by exact Hs.
  pose proof (arc_point_1 u Hu arc_angle s e Hp Hs) as H1.
  unfold arc_point in H1. rewrite Rmult_1_l in H1.
  set (c := arc_center arc_angle u s e) in *.
  f_equal.
  replace (vsub e c) with (rotate arc_angle u (vsub s c)).
  - rewrite rotate_add by exact Hu. f_equal. ring.
  - clearbody c. rewrite <- H1.
    generalize (rotate arc_angle u (vsub s c)) as r. intros r.
    clear. by_coordinates. apply point_eq; ring.
Qed.

Lemma arc_law_reversed (arc_angle : R) (u : Point3D) (alpha : R)
  (s e : Point3D) :
  arc_angle_regular arc_angle -> dot u u = 1 -> dot u (vsub e s) = 0 ->
  arc_law (- arc_angle) u (1 - alpha) e s = arc_law arc_angle u alpha s e.
Proof.
  intros Hreg Hu Hp. unfold arc_law. rewrite Rabs_Ropp.
  destruct (Rlt_dec (Rabs arc_angle) STRAIGHT_PATH_THRESHOLD) as [Hlt|Hge].
  - unfold lerp. by_coordinates. apply point_eq; ring.
  - destruct Hreg as [Hlt|Hs]; [contradiction|].
    apply arc_point_reversed; assumption.
Qed.

Lemma zipWith_flip {A B C : Type} (f : A -> B -> C) (g : B -> A -> C)
  (a : list A) (b : list B) :
  Forall2 (fun x y => f x y = g y x) a b -> zipWith f a b = zipWith g b a.
Proof. induction 1; simpl; congruence. Qed.

(** X7.  An arc run backwards is the arc of the opposite angle: for chords
    perpendicular to the unit axis and an arc angle below the threshold or
    with [sin (arc_angle / 2) <> 0], [path_along_arc(-arc_angle)] from the
    end points to the start points at [1 - alpha] is [path_along_arc
    (arc_angle)] from the start points to the end points at [alpha]. *)
Theorem path_along_arc_backwards (arc_angle : R) (axis : Point3D)
  (s e : Point3D_Array) (alpha : R) :
  arc_angle_regular arc_angle ->
  Forall2 (chord_perpendicular (normalize axis OUT)) s e ->
  path_along_arc (- arc_angle) axis e s (1 - alpha)
  = path_along_arc arc_angle axis s e alpha.
Proof.
  intros Hreg Hp.
  assert (H : length s = length e) by (eapply Forall2_length; eauto).
  rewrite !path_along_arc_law by auto using regular_opp.
  apply f_equal. symmetry. apply zipWith_flip.
  eapply Forall2_weaken; [|exact Hp].
  intros p q Hpq. symmetry.
  apply arc_law_reversed; auto. apply normalize_unit.
Qed.

Lemma level_example :
  Forall2 (chord_perpendicular (normalize OUT OUT))
    [mkP 0 0 1; mkP 1 1 0] [mkP 2 0 1; mkP 0 3 0].
Proof. apply level_chords. repeat constructor. Qed.

Lemma path_along_arc_backwards_witness :
  arc_angle_regular PI /\
  Forall2 (chord_perpendicular (normalize OUT OUT))
    [mkP 0 0 1; mkP 1 1 0] [mkP 2 0 1; mkP 0 3 0] /\
  path_along_arc (- PI) OUT [mkP 2 0 1; mkP 0 3 0] [mkP 0 0 1; mkP 1 1 0]
    (1 - 0.25)
  = path_along_arc PI OUT [mkP 0 0 1; mkP 1 1 0] [mkP 2 0 1; mkP 0 3 0] 0.25.
Proof.
  split; [exact regular_PI|]. split; [exact level_example|].
  apply (path_along_arc_backwards PI OUT [mkP 0 0 1; mkP 1 1 0]
           [mkP 2 0 1; mkP 0 3 0] 0.25 regular_PI level_example).
Defined.

(** ** Empty collections and centres that do not fit *)

Lemma path_along_arc_empty (arc_angle : R) (axis : Point3D) (alpha : R) :
  path_along_arc arc_angle axis [] [] alpha = Ok [].
Proof.
  unfold path_along_arc.
  destruct (Rlt_dec (Rabs arc_angle) STRAIGHT_PATH_THRESHOLD); [reflexivity|].
  unfold arc_centers, np_sub, np_add, broadcast. simpl.
  destruct (Req_dec_T arc_angle PI); reflexivity.
Qed.

(** X8.  On empty start and end collections every path function returns the
    empty collection, for every angle (also one at which the tangent of the
    half angle is 0), axis and [alpha]; [path_along_circles] does so with no
    centre or one centre, and raises [ValueError] with two or more. *)
Theorem paths_on_empty_collections (alpha : R) :
  straight_path [] [] alpha = Ok []
  /\ (forall arc_angle axis, path_along_arc arc_angle axis [] [] alpha = Ok [])
  /\ (forall angle axis, spiral_path angle axis [] [] alpha = Ok [])
  /\ (forall arc_angle circles_centers axis,
         (length circles_centers <= 1)%nat ->
         path_along_circles arc_angle circles_centers axis [] [] alpha = Ok [])
  /\ (forall arc_angle circles_centers axis,
         (2 <= length circles_centers)%nat ->
         path_along_circles arc_angle circles_centers axis [] [] alpha
         = ValueError).
Proof.
  repeat split.
  - intros arc_angle axis. apply path_along_arc_empty.
  - intros angle axis. unfold spiral_path.
    destruct (Rlt_dec (Rabs angle) STRAIGHT_PATH_THRESHOLD); reflexivity.
  - intros arc_angle cs axis Hc.
    destruct cs as [|c [|c' cs]]; [reflexivity|reflexivity|simpl in Hc; lia].
  - intros arc_angle cs axis Hc.
    destruct cs as [|c [|c' cs]]; [simpl in Hc; lia|simpl in Hc; lia|].
    reflexivity.
Qed.

Lemma paths_on_empty_collections_witness :
  straight_path [] [] 0.5 = Ok []
  /\ (forall arc_angle axis, path_along_arc arc_angle axis [] [] 0.5 = Ok [])
  /\ (forall angle axis, spiral_path angle axis [] [] 0.5 = Ok [])
  /\ (forall arc_angle circles_centers axis,
         (length circles_centers <= 1)%nat ->
         path_along_circles arc_angle circles_centers axis [] [] 0.5 = Ok [])
  /\ (forall arc_angle circles_centers axis,
         (2 <= length circles_centers)%nat ->
         path_along_circles arc_angle circles_centers axis [] [] 0.5
         = ValueError).
Proof. apply (paths_on_empty_collections 0.5). Defined.

Lemma path_along_circles_one_pair (arc_angle : R) (cs : Point3D_Array)
  (axis p q : Point3D) (alpha : R) :
  exists out,
    path_along_circles arc_angle cs axis [p] [q] alpha = Ok out /\
    length out = length cs.
Proof.
  unfold path_along_circles, interpolate, np_sub, np_add, np_dot, np_scale.
  rewrite broadcast_single_l. cbn [bind].
  rewrite broadcast_same by lengths. cbn [bind].
  rewrite broadcast_single_r. cbn [bind].
  rewrite broadcast_single_l. cbn [bind].
  rewrite broadcast_same by lengths. cbn [bind].
  rewrite broadcast_same by lengths.
  eexists. split; [reflexivity|]. lengths.
Qed.

(** X9.  The centres of [path_along_circles] against start and end
    collections of one length [n]: for [n] other than 1 the call raises
    [ValueError] exactly when the number of centres is neither [n] nor 1;
    for a single pair of points it accepts any number of centres and returns
    one point per centre. *)
Theorem path_along_circles_centers (arc_angle : R)
  (circles_centers : Point3D_Array) (axis : Point3D) (s e : Point3D_Array)
  (alpha : R) :
  length s = length e ->
  (length e <> 1%nat ->
   (path_along_circles arc_angle circles_centers axis s e alpha = ValueError
    <-> ~ centers_fit circles_centers (length s)))
  /\ (length e = 1%nat ->
      exists out,
        path_along_circles arc_angle circles_centers axis s e alpha = Ok out
        /\ length out = length circles_centers).
Proof.
  intros H. split.
  - intros He. split.
    + intros Hv Hfit.
      destruct (path_along_circles_defined arc_angle circles_centers axis
                  s e alpha H Hfit) as (out & Hout & _).
      congruence.
    + intros Hfit. unfold centers_fit in Hfit.
      unfold path_along_circles, np_sub.
      rewrite broadcast_mismatch by (auto; intros E; apply Hfit; lia).
      reflexivity.
  - intros He.
    destruct s as [|p [|p' s]]; destruct e as [|q [|q' e]];
      try discriminate.
    apply path_along_circles_one_pair.
Qed.

Lemma path_along_circles_centers_witness :
  length [mkP 0 0 0; mkP 1 0 0; mkP 2 0 0]
  = length [mkP 0 1 0; mkP 1 1 0; mkP 2 1 0] /\
  (length [mkP 0 1 0; mkP 1 1 0; mkP 2 1 0] <> 1%nat ->
   (path_along_circles PI [mkP 5 5 0; mkP 6 6 0] OUT
      [mkP 0 0 0; mkP 1 0 0; mkP 2 0 0] [mkP 0 1 0; mkP 1 1 0; mkP 2 1 0] 0.5
    = ValueError
    <-> ~ centers_fit [mkP 5 5 0; mkP 6 6 0]
            (length [mkP 0 0 0; mkP 1 0 0; mkP 2 0 0])))
  /\ (length [mkP 0 1 0; mkP 1 1 0; mkP 2 1 0] = 1%nat ->
      exists out,
        path_along_circles PI [mkP 5 5 0; mkP 6 6 0] OUT
          [mkP 0 0 0; mkP 1 0 0; mkP 2 0 0] [mkP 0 1 0; mkP 1 1 0; mkP 2 1 0]
          0.5 = Ok out
        /\ length out = length [mkP 5 5 0; mkP 6 6 0]).
Proof.
  split; [reflexivity|].
  apply (path_along_circles_centers PI [mkP 5 5 0; mkP 6 6 0] OUT
           [mkP 0 0 0; mkP 1 0 0; mkP 2 0 0] [mkP 0 1 0; mkP 1 1 0; mkP 2 1 0]
           0.5 eq_refl).
Defined.

(** ** Points do not see each other *)

Lemma zipWith_app {A B C : Type} (f : A -> B -> C) (a1 a2 : list A)
  (b1 b2 : list B) :
  length a1 = length b1 ->
  zipWith f (a1 ++ a2) (b1 ++ b2) = zipWith f a1 b1 ++ zipWith f a2 b2.
Proof.
  revert b1; induction a1 as [|x a1 IH]; intros [|y b1] H; simpl in *;
    try discriminate; auto.
  rewrite IH by lia. reflexivity.
Qed.

Lemma zipWith3_app {A B C D : Type} (f : A -> B -> C -> D) (a1 a2 : list A)
  (b1 b2 : list B) (c1 c2 : list C) :
  length a1 = length b1 -> length b1 = length c1 ->
  zipWith3 f (a1 ++ a2) (b1 ++ b2) (c1 ++ c2)
  = zipWith3 f a1 b1 c1 ++ zipWith3 f a2 b2 c2.
Proof.
  revert b1 c1; induction a1 as [|x a1 IH]; intros [|y b1] [|z c1] H1 H2;
    simpl in *; try discriminate; auto.
  rewrite IH by lia. reflexivity.
Qed.

(** The value of [path_along_arc]'s function, whenever it has one. *)
Lemma path_along_arc_cases (arc_angle : R) (axis : Point3D)
  (s e out : Point3D_Array) (alpha : R) :
  length s = length e ->
  path_along_arc arc_angle axis s e alpha = Ok out ->
  out = zipWith (arc_law arc_angle (normalize axis OUT) alpha) s e.
Proof.
  intros H Hout.
  destruct (Rlt_dec (Rabs arc_angle) STRAIGHT_PATH_THRESHOLD) as [Hlt|Hge].
  - rewrite path_along_arc_law in Hout by (auto; left; exact Hlt). congruence.
  - destruct (Req_dec_T (sin (arc_angle / 2)) 0) as [Hs|Hs].
    + destruct s as [|p s]; destruct e as [|q e]; try discriminate.
      * rewrite path_along_arc_empty in Hout. injection Hout as <-.
        reflexivity.
      * rewrite path_along_arc_singular in Hout; try discriminate; auto.
        unfold arc_angle_regular. tauto.
    + rewrite path_along_arc_law in Hout by (auto; right; exact Hs).
      congruence.
Qed.

Lemma path_along_arc_value_regular (arc_angle : R) (axis : Point3D)
  (s e out : Point3D_Array) (alpha : R) :
  length s = length e ->
  path_along_arc arc_angle axis s e alpha = Ok out ->
  s = [] \/ arc_angle_regular arc_angle.
Proof.
  intros H Hout.
  destruct (Rlt_dec (Rabs arc_angle) STRAIGHT_PATH_THRESHOLD) as [Hlt|Hge];
    [right; left; exact Hlt|].
  destruct (Req_dec_T (sin (arc_angle / 2)) 0) as [Hs|Hs];
    [|right; right; exact Hs].
  destruct s as [|p s]; [left; reflexivity|].
  rewrite path_along_arc_singular in Hout; try discriminate; auto.
  unfold arc_angle_regular. tauto.
Qed.

(** X10.  Points do not see each other: a path function applied to two
    pairs of collections laid end to end returns the two results laid end to
    end.  For [path_along_circles] the centres are laid end to end as well,
    or there is one centre for all points. *)
Theorem paths_split_over_append (s1 e1 s2 e2 : Point3D_Array) (alpha : R) :
  length s1 = length e1 -> length s2 = length e2 ->
  append_law s1 e1 s2 e2 alpha.
Proof.
  intros H1 H2. unfold append_law.
  assert (H : length (s1 ++ s2) = length (e1 ++ e2))
    by (rewrite !length_app; lia).
  repeat split.
  - intros o1 o2 E1 E2. unfold straight_path in *.
    rewrite interpolate_pointwise in * by assumption.
    injection E1 as <-. injection E2 as <-.
    rewrite zipWith_app by exact H1. reflexivity.
  - intros arc_angle axis o1 o2 E1 E2.
    assert (Hreg : (s1 = [] /\ s2 = []) \/ arc_angle_regular arc_angle).
    { destruct (path_along_arc_value_regular _ _ _ _ _ _ H1 E1) as [Z1|R1];
        [|right; exact R1].
      destruct (path_along_arc_value_regular _ _ _ _ _ _ H2 E2) as [Z2|R2];
        [left; split; assumption|right; exact R2]. }
    apply path_along_arc_cases in E1; [|exact H1].
    apply path_along_arc_cases in E2; [|exact H2]. subst o1 o2.
    destruct Hreg as [[Z1 Z2]|Hreg].
    + subst s1 s2. destruct e1; [|discriminate]. destruct e2; [|discriminate].
      apply path_along_arc_empty.
    + rewrite path_along_arc_law by assumption.
      rewrite zipWith_app by exact H1. reflexivity.
  - intros angle axis o1 o2 E1 E2.
    rewrite spiral_path_law in * by assumption.
    injection E1 as <-. injection E2 as <-.
    rewrite zipWith_app by exact H1. reflexivity.
  - intros arc_angle c axis o1 o2 E1 E2.
    rewrite path_along_circles_single in * by assumption.
    injection E1 as <-. injection E2 as <-.
    rewrite zipWith_app by exact H1. reflexivity.
  - intros arc_angle cs1 cs2 axis o1 o2 Hc1 Hc2 E1 E2.
    rewrite path_along_circles_each in E1, E2 by assumption.
    rewrite path_along_circles_each by (rewrite ?length_app; lia).
    injection E1 as <-. injection E2 as <-.
    rewrite zipWith3_app by assumption. reflexivity.
Qed.

Lemma paths_split_over_append_witness :
  length [mkP 0 0 0] = length [mkP 1 0 0] /\
  length [mkP 0 1 0; mkP 0 2 0] = length [mkP 3 1 0; mkP 0 0 2] /\
  append_law [mkP 0 0 0] [mkP 1 0 0] [mkP 0 1 0; mkP 0 2 0]
    [mkP 3 1 0; mkP 0 0 2] 0.5.
Proof.
  split; [reflexivity|]. split; [reflexivity|].
  apply (paths_split_over_append [mkP 0 0 0] [mkP 1 0 0]
           [mkP 0 1 0; mkP 0 2 0] [mkP 3 1 0; mkP 0 0 2] 0.5 eq_refl eq_refl).
Defined.

(** ** The axis turned round *)

Lemma norm_vneg (v : Point3D) : norm (vneg v) = norm v.
Proof. unfold norm. f_equal. unfold vneg. by_coordinates. ring. Qed.

Lemma normalize_vneg (axis : Point3D) :
  0 < norm axis -> normalize (vneg axis) OUT = vneg (normalize axis OUT).
Proof.
  intros Hn. unfold normalize. rewrite norm_vneg.
  destruct (Rlt_dec 0 (norm axis)) as [_|Hc]; [|contradiction].
  generalize dependent (norm axis). intros n Hn.
  unfold vneg. by_coordinates. apply point_eq; field; lra.
Qed.

(** Turning by an angle about the opposite axis is turning by the opposite
    angle. *)
Lemma rotation_matrix_vneg (angle : R) (u : Point3D) :
  rotation_matrix angle (vneg u) = rotation_matrix (- angle) u.
Proof.
  unfold rotation_matrix. rewrite cos_neg, sin_neg.
  generalize (cos angle) as c, (sin angle) as k. intros c k.
  unfold vneg. by_coordinates.
  f_equal; apply point_eq; ring.
Qed.

Lemma spiral_path_axis_flip (angle : R) (axis : Point3D)
  (s e : Point3D_Array) (alpha : R) :
  0 < norm axis ->
  spiral_path angle (vneg axis) s e alpha = spiral_path (- angle) axis s e alpha.
Proof.
  intros Hn. unfold spiral_path. rewrite Rabs_Ropp, normalize_vneg by exact Hn.
  destruct (Rlt_dec (Rabs angle) STRAIGHT_PATH_THRESHOLD); [reflexivity|].
  rewrite rotation_matrix_vneg.
  replace (- ((alpha - 1) * angle)) with ((alpha - 1) * - angle) by ring.
  reflexivity.
Qed.

Lemma path_along_circles_axis_flip (arc_angle : R) (cs : Point3D_Array)
  (axis : Point3D) (s e : Point3D_Array) (alpha : R) :
  0 < norm axis ->
  path_along_circles arc_angle cs (vneg axis) s e alpha
  = path_along_circles (- arc_angle) cs axis s e alpha.
Proof.
  intros Hn. unfold path_along_circles.
  rewrite normalize_vneg by exact Hn. rewrite !rotation_matrix_vneg.
  replace (- (alpha * arc_angle)) with (alpha * - arc_angle) by ring.
  reflexivity.
Qed.

Lemma cross_vneg_l (u v : Point3D) : cross (vneg u) v = vneg (cross u v).
Proof. unfold vneg. by_coordinates. apply point_eq; ring. Qed.

Lemma arc_law_axis_flip (arc_angle : R) (u : Point3D) (alpha : R)
  (s e : Point3D) :
  arc_angle_regular arc_angle ->
  arc_law arc_angle (vneg u) alpha s e = arc_law (- arc_angle) u alpha s e.
Proof.
  intros Hreg. unfold arc_law. rewrite Rabs_Ropp.
  destruct (Rlt_dec (Rabs arc_angle) STRAIGHT_PATH_THRESHOLD) as [Hlt|Hge];
    [reflexivity|].
  destruct Hreg as [Hlt|Hs]; [contradiction|].
  unfold arc_point, rotate.
  assert (Hc : arc_center arc_angle (vneg u) s e
               = arc_center (- arc_angle) u s e).
  { unfold arc_center. rewrite cross_vneg_l.
    replace (- arc_angle / 2) with (- (arc_angle / 2)) by field.
    rewrite cos_neg, sin_neg.
    generalize dependent (sin (arc_angle / 2)). intros k Hk.
    generalize (cos (arc_angle / 2)) as c. intros c.
    generalize (cross u (vdiv (vsub e s) 2)) as x. intros x.
    unfold vneg. by_coordinates. apply point_eq; field; exact Hk. }
  rewrite Hc, rotation_matrix_vneg.
  replace (- (alpha * arc_angle)) with (alpha * - arc_angle) by ring.
  reflexivity.
Qed.

(** X11.  For an axis that is not the zero vector, the opposite axis gives
    what the opposite angle gives: [spiral_path] and [path_along_circles] on
    every input, and [path_along_arc] on collections of equal length for an
    arc angle below the threshold or with [sin (arc_angle / 2) <> 0]. *)
Theorem opposite_axis_is_opposite_angle (angle : R) (axis : Point3D)
  (s e : Point3D_Array) (alpha : R) :
  0 < norm axis ->
  spiral_path angle (vneg axis) s e alpha = spiral_path (- angle) axis s e alpha
  /\ (forall circles_centers,
         path_along_circles angle circles_centers (vneg axis) s e alpha
         = path_along_circles (- angle) circles_centers axis s e alpha)
  /\ (length s = length e -> arc_angle_regular angle ->
      path_along_arc angle (vneg axis) s e alpha
      = path_along_arc (- angle) axis s e alpha).
Proof.
  intros Hn. repeat split.
  - apply spiral_path_axis_flip, Hn.
  - intros cs. apply path_along_circles_axis_flip, Hn.
  - intros H Hreg. rewrite !path_along_arc_law by auto using regular_opp.
    rewrite normalize_vneg by exact Hn.
    apply f_equal, zipWith_ext, Forall2_same_length; auto.
    intros p q. apply arc_law_axis_flip, Hreg.
Qed.

Lemma norm_example : 0 < norm (mkP 0 0 2).
Proof.
  unfold norm, dot; simpl.
  replace (0 * 0 + 0 * 0 + 2 * 2) with (Rsqr 2) by (unfold Rsqr; ring).
  rewrite sqrt_Rsqr; lra.
Qed.

Lemma opposite_axis_is_opposite_angle_witness :
  0 < norm (mkP 0 0 2) /\
  spiral_path PI (vneg (mkP 0 0 2)) [mkP 0 0 0] [mkP 1 0 0] 0.5
  = spiral_path (- PI) (mkP 0 0 2) [mkP 0 0 0] [mkP 1 0 0] 0.5
  /\ (forall circles_centers,
         path_along_circles PI circles_centers (vneg (mkP 0 0 2))
           [mkP 0 0 0] [mkP 1 0 0] 0.5
         = path_along_circles (- PI) circles_centers (mkP 0 0 2)
             [mkP 0 0 0] [mkP 1 0 0] 0.5)
  /\ (length [mkP 0 0 0] = length [mkP 1 0 0] -> arc_angle_regular PI ->
      path_along_arc PI (vneg (mkP 0 0 2)) [mkP 0 0 0] [mkP 1 0 0] 0.5
      = path_along_arc (- PI) (mkP 0 0 2) [mkP 0 0 0] [mkP 1 0 0] 0.5).
Proof.
  split; [exact norm_example|].
  apply (opposite_axis_is_opposite_angle PI (mkP 0 0 2) [mkP 0 0 0]
           [mkP 1 0 0] 0.5 norm_example).
Defined.

(** * Properties of the matrix mobject *)

Lemma count_char_append (c : Ascii.ascii) (s t : String.string) :
  count_char c (String.append s t) = (count_char c s + count_char c t)%nat.
Proof. induction s as [|a s IH]; simpl; auto. rewrite IH. lia. Qed.

Lemma count_char_times (c : Ascii.ascii) (s : String.string) (n : nat) :
  count_char c (str_times s n) = (n * count_char c s)%nat.
Proof.
  induction n as [|n IH]; simpl; auto.
  rewrite count_char_append, IH. reflexivity.
Qed.

Lemma count_char_concat (c : Ascii.ascii) (sep : String.string)
  (l : list String.string) :
  Forall (fun s => count_char c s = O) l ->
  count_char c (String.concat sep l) = ((length l - 1) * count_char c sep)%nat.
Proof.
  induction 1 as [|s l Hs Hl IH]; simpl; auto.
  destruct l as [|s' l].
  - simpl. exact Hs.
  - rewrite !count_char_append, IH, Hs. simpl. lia.
Qed.

Lemma count_char_concat_sum (c : Ascii.ascii) (sep : String.string)
  (l : list String.string) (k : nat) :
  count_char c sep = O -> Forall (fun s => count_char c s = k) l ->
  count_char c (String.concat sep l) = (length l * k)%nat.
Proof.
  intros Hsep. induction 1 as [|s l Hs Hl IH]; simpl; auto.
  destruct l as [|s' l].
  - simpl. lia.
  - rewrite !count_char_append, IH, Hs, Hsep. simpl. lia.
Qed.

(** X12.  In the string [matrix_to_tex_string] builds for a two-dimensional
    array whose entries hold no ampersand, every row holds [n_cols - 1]
    ampersands, so the whole string holds [n_rows * (n_cols - 1)] of them:
    each row has as many cells as the column specification declares.  A
    one-dimensional array is set as one column and holds none. *)
Theorem matrix_to_tex_string_cells (n_cols : nat)
  (rows : list (list String.string)) (items : list String.string) :
  Forall (fun row => length row = n_cols) rows ->
  Forall (Forall (fun entry => count_char "&" entry = O)) rows ->
  Forall (fun entry => count_char "&" entry = O) items ->
  (exists tex,
      matrix_to_tex_string (Array2 n_cols rows) = Ok tex /\
      count_char "&" tex = (length rows * (n_cols - 1))%nat)
  /\ (exists tex,
         matrix_to_tex_string (Array1 items) = Ok tex /\
         count_char "&" tex = O).
Proof.
  intros Hlen Hrows Hitems.
  assert (Hp : count_char "&" "\left[ \begin{array}{" = O) by reflexivity.
  assert (Hb : count_char "&" "}" = O) by reflexivity.
  assert (Hc : count_char "&" "c" = O) by reflexivity.
  assert (Hs : count_char "&" "\end{array} \right]" = O) by reflexivity.
  assert (Hr : count_char "&" " \\ " = O) by reflexivity.
  split.
  - eexists. split; [reflexivity|].
    rewrite !count_char_append, count_char_times, Hp, Hb, Hc, Hs.
    rewrite (count_char_concat_sum "&" " \\ " _ (n_cols - 1) Hr).
    + rewrite length_map. lia.
    + apply Forall_map. rewrite Forall_forall in *.
      intros row Hin. rewrite count_char_concat by (apply Hrows, Hin).
      rewrite (Hlen row Hin). simpl. lia.
  - eexists. split; [reflexivity|].
    rewrite !count_char_append, count_char_times, Hp, Hb, Hc, Hs.
    rewrite (count_char_concat_sum "&" " \\ " _ O Hr).
    + lia.
    + rewrite map_map. apply Forall_map. rewrite Forall_forall in *.
      intros item Hin. simpl. rewrite (Hitems item Hin). reflexivity.
Qed.

Lemma matrix_to_tex_string_example :
  matrix_to_tex_string (Array2 2 [["1"; "2"]; ["3"; "4"]]%string)
  = Ok "\left[ \begin{array}{cc}1 & 2 \\ 3 & 4\end{array} \right]"%string.
Proof. reflexivity. Qed.

Lemma matrix_to_tex_string_cells_witness :
  Forall (fun row => length row = 2%nat) [["1"; "2"]; ["3"; "4"]]%string /\
  Forall (Forall (fun entry => count_char "&" entry = O))
    [["1"; "2"]; ["3"; "4"]]%string /\
  Forall (fun entry => count_char "&" entry = O) ["a"; "b"]%string /\
  (exists tex,
      matrix_to_tex_string (Array2 2 [["1"; "2"]; ["3"; "4"]]%string) = Ok tex /\
      count_char "&" tex = (length [["1"; "2"]; ["3"; "4"]]%string * (2 - 1))%nat)
  /\ (exists tex,
         matrix_to_tex_string (Array1 ["a"; "b"]%string) = Ok tex /\
         count_char "&" tex = O).
Proof.
  assert (H1 : Forall (fun row => length row = 2%nat)
                 [["1"; "2"]; ["3"; "4"]]%string)
    by (repeat constructor).
  assert (H2 : Forall (Forall (fun entry => count_char "&" entry = O))
                 [["1"; "2"]; ["3"; "4"]]%string)
    by (repeat constructor).
  assert (H3 : Forall (fun entry => count_char "&" entry = O) ["a"; "b"]%string)
    by (repeat constructor).
  split; [exact H1|]. split; [exact H2|]. split; [exact H3|].
  apply (matrix_to_tex_string_cells 2 [["1"; "2"]; ["3"; "4"]]%string
           ["a"; "b"]%string H1 H2 H3).
Defined.

(** ** Rows, columns and entries of a Matrix *)

Lemma getitem_value {A : Type} (l : list A) (i : nat) (d : A) :
  (i < length l)%nat -> getitem l i = Value (nth i l d).
Proof.
  intros Hi. unfold getitem.
  destruct (nth_error l i) as [a|] eqn:E.
  - f_equal. symmetry. apply nth_error_nth, E.
  - apply nth_error_None in E. lia.
Qed.

Lemma getitem_error {A : Type} (l : list A) (i : nat) :
  getitem l i = IndexError <-> (length l <= i)%nat.
Proof.
  unfold getitem. destruct (nth_error l i) as [a|] eqn:E.
  - split; [discriminate|]. intros H.
    apply nth_error_None in H. congruence.
  - split; [|reflexivity]. intros _. apply nth_error_None, E.
Qed.

Lemma gather_values {A B : Type} (f : A -> indexed B) (g : A -> B)
  (l : list A) :
  Forall (fun a => f a = Value (g a)) l -> gather f l = Value (map g l).
Proof.
  induction 1 as [|a l Ha Hl IH]; simpl; auto. rewrite Ha, IH. reflexivity.
Qed.

Lemma gather_error {A B : Type} (f : A -> indexed B) (l : list A) :
  gather f l = IndexError <-> Exists (fun a => f a = IndexError) l.
Proof.
  induction l as [|a l IH]; simpl.
  - split; [discriminate|]. intros H. inversion H.
  - destruct (f a) as [b|] eqn:E.
    + destruct (gather f l) as [bs|] eqn:G.
      * split; [discriminate|]. intros H. inversion H; subst; [congruence|].
        apply IH in H1. discriminate.
      * split; [|reflexivity]. intros _. right. apply IH. reflexivity.
    + split; [|reflexivity]. intros _. left. exact E.
Qed.

Lemma indexed_map_error {A B : Type} (f : A -> B) (r : indexed A) :
  indexed_map f r = IndexError <-> r = IndexError.
Proof. destruct r; simpl; split; congruence. Qed.

Lemma NoDup_app_disjoint {A : Type} (l1 l2 : list A) (a : A) :
  NoDup (l1 ++ l2) -> In a l1 -> ~ In a l2.
Proof.
  induction l1 as [|x l1 IH]; simpl; intros Hnd Hin; [contradiction|].
  inversion Hnd as [|? ? Hx Hrest]; subst. destruct Hin as [->|Hin].
  - intros H2. apply Hx. apply in_or_app. right. exact H2.
  - apply IH; assumption.
Qed.

(** No mobject is twice in a column of a matrix of mobjects that are
    pairwise different. *)
Lemma column_NoDup {M : Type} (d : M) (j : nat) (mm : list (list M)) :
  NoDup (concat mm) -> Forall (fun row => (j < length row)%nat) mm ->
  NoDup (map (fun row => nth j row d) mm).
Proof.
  intros Hnd Hall. induction Hall as [|row mm Hrow Hall IH]; simpl in *.
  - constructor.
  - constructor.
    + intros Hin. apply in_map_iff in Hin. destruct Hin as (row' & E & Hin').
      apply (NoDup_app_disjoint row (concat mm) (nth j row d) Hnd).
      * apply nth_In, Hrow.
      * rewrite <- E. apply in_concat. exists row'. split; [exact Hin'|].
        apply nth_In. rewrite Forall_forall in Hall. apply Hall, Hin'.
    + apply IH. eapply NoDup_app_remove_l. exact Hnd.
Qed.

Lemma get_columns_value {M : Type} (VGroup : list M -> list M) (d : M)
  (first : list M) (rest : list (list M)) :
  keeps_distinct VGroup ->
  NoDup (concat (first :: rest)) ->
  Forall (fun row => (length first <= length row)%nat) rest ->
  get_columns VGroup (first :: rest) = Value (columns_of d (first :: rest)).
Proof.
  intros Hk Hnd Hrest. unfold get_columns, columns_of. simpl getitem. simpl hd.
  apply gather_values. rewrite Forall_forall. intros j Hj.
  apply in_seq in Hj.
  assert (Hlong : Forall (fun row => (j < length row)%nat) (first :: rest)).
  { constructor; [lia|]. eapply Forall_impl; [|exact Hrest].
    simpl. intros row Hrow. lia. }
  rewrite (gather_values _ (fun row => nth j row d)).
  - cbn [indexed_map]. apply f_equal. apply Hk.
    apply column_NoDup; assumption.
  - eapply Forall_impl; [|exact Hlong]. simpl. intros row Hrow.
    apply getitem_value, Hrow.
Qed.

Lemma nth_columns_of {M : Type} (d : M) (mm : list (list M)) (i j : nat) :
  (j < length (hd [] mm))%nat -> (i < length mm)%nat ->
  nth i (nth j (columns_of d mm) []) d = nth j (nth i mm []) d.
Proof.
  intros Hj Hi. unfold columns_of.
  rewrite (nth_indep _ [] (map (fun row => nth 0 row d) mm))
    by (rewrite length_map, length_seq; exact Hj).
  rewrite (map_nth (fun j => map (fun row => nth j row d) mm) (seq 0 _) 0%nat).
  rewrite seq_nth by exact Hj. simpl.
  rewrite (nth_indep _ d (nth j [] d)) by (rewrite length_map; exact Hi).
  apply (map_nth (fun row => nth j row d)).
Qed.

(** Numbers that are pairwise different. *)
Ltac distinct_numbers :=
  repeat (apply NoDup_cons; [simpl; intuition discriminate|]); apply NoDup_nil.

(** X13.  For a matrix of mobjects that are pairwise different, that is not
    empty and whose rows are at least as long as its first row,
    [get_columns] returns as many columns as the first row has entries, each
    with one member per row, and member [i] of column [j] is
    [mob_matrix[i][j]]: entries of a longer row beyond the length of the
    first row are in no column. *)
Theorem get_columns_members {M : Type} (VGroup : list M -> list M) (d : M)
  (first : list M) (rest : list (list M)) :
  keeps_distinct VGroup ->
  NoDup (concat (first :: rest)) ->
  Forall (fun row => (length first <= length row)%nat) rest ->
  exists columns,
    get_columns VGroup (first :: rest) = Value columns /\
    length columns = length first /\
    forall j, (j < length first)%nat ->
      length (nth j columns []) = length (first :: rest) /\
      forall i, (i < length (first :: rest))%nat ->
        nth i (nth j columns []) d = nth j (nth i (first :: rest) []) d.
Proof.
  intros Hk Hnd Hrest. exists (columns_of d (first :: rest)).
  split; [apply get_columns_value; assumption|].
  split; [unfold columns_of; rewrite length_map, length_seq; reflexivity|].
  intros j Hj. split.
  - unfold columns_of. simpl hd.
    rewrite (nth_indep _ [] (map (fun row => nth 0 row d) (first :: rest)))
      by (rewrite length_map, length_seq; exact Hj).
    rewrite (map_nth (fun j => map (fun row => nth j row d) (first :: rest))
               (seq 0 _) 0%nat).
    rewrite length_map. reflexivity.
  - intros i Hi. apply nth_columns_of; assumption.
Qed.

Lemma get_columns_members_witness :
  keeps_distinct (nodup Nat.eq_dec) /\
  NoDup (concat ([1; 2]%nat :: [[3; 4; 5]%nat])) /\
  Forall (fun row => (length [1; 2]%nat <= length row)%nat) [[3; 4; 5]%nat] /\
  exists columns,
    get_columns (nodup Nat.eq_dec) ([1; 2]%nat :: [[3; 4; 5]%nat])
    = Value columns /\
    length columns = length [1; 2]%nat /\
    forall j, (j < length [1; 2]%nat)%nat ->
      length (nth j columns []) = length ([1; 2]%nat :: [[3; 4; 5]%nat]) /\
      forall i, (i < length ([1; 2]%nat :: [[3; 4; 5]%nat]))%nat ->
        nth i (nth j columns []) 0%nat
        = nth j (nth i ([1; 2]%nat :: [[3; 4; 5]%nat]) []) 0%nat.
Proof.
  assert (Hk : keeps_distinct (nodup Nat.eq_dec))
    by (intros members Hm; apply nodup_fixed_point, Hm).
  assert (Hnd : NoDup (concat ([1; 2]%nat :: [[3; 4; 5]%nat])))
    by (simpl; distinct_numbers).
  assert (H : Forall (fun row => (length [1; 2]%nat <= length row)%nat)
                [[3; 4; 5]%nat])
    by (repeat constructor; simpl; lia).
  split; [exact Hk|]. split; [exact Hnd|]. split; [exact H|].
  apply (get_columns_members (nodup Nat.eq_dec) 0%nat [1; 2]%nat
           [[3; 4; 5]%nat] Hk Hnd H).
Defined.

(** X14.  [get_columns] raises [IndexError] exactly when the matrix has no
    row or some row is shorter than the first row. *)
Theorem get_columns_index_error {M : Type} (VGroup : list M -> list M)
  (mob_matrix : list (list M)) :
  get_columns VGroup mob_matrix = IndexError
  <-> mob_matrix = []
      \/ Exists (fun row => (length row < length (hd [] mob_matrix))%nat)
           mob_matrix.
Proof.
  destruct mob_matrix as [|first rest].
  - split; [left; reflexivity|reflexivity].
  - unfold get_columns, getitem. cbn [nth_error hd]. rewrite gather_error.
    split.
    + intros H. right. apply Exists_exists in H. destruct H as (j & Hj & Hg).
      apply in_seq in Hj. apply indexed_map_error, gather_error in Hg.
      apply Exists_exists in Hg. destruct Hg as (row & Hin & Hrow).
      apply getitem_error in Hrow.
      apply Exists_exists. exists row. split; [exact Hin|lia].
    + intros [H|H]; [discriminate|].
      apply Exists_exists in H. destruct H as (row & Hin & Hrow).
      apply Exists_exists. exists (length row). split.
      * apply in_seq. lia.
      * apply indexed_map_error, gather_error. apply Exists_exists.
        exists row. split; [exact Hin|]. apply getitem_error. lia.
Qed.

Lemma nth_concat_row {A : Type} (d : A) (c : nat) (ll : list (list A))
  (i j : nat) :
  Forall (fun row => length row = c) ll ->
  (i < length ll)%nat -> (j < c)%nat ->
  nth (i * c + j) (concat ll) d = nth j (nth i ll []) d.
Proof.
  intros Hall. revert i. induction Hall as [|row ll Hrow Hall IH];
    intros i Hi Hj; simpl in *; [lia|].
  destruct i as [|i].
  - simpl. rewrite app_nth1 by lia. reflexivity.
  - rewrite app_nth2 by (rewrite Hrow; simpl; lia).
    rewrite Hrow. replace (S i * c + j - c)%nat with (i * c + j)%nat
      by (simpl; lia).
    apply IH; lia.
Qed.

Lemma length_concat_rows {A : Type} (c : nat) (ll : list (list A)) :
  Forall (fun row => length row = c) ll ->
  length (concat ll) = (length ll * c)%nat.
Proof.
  induction 1 as [|row ll Hrow Hall IH]; simpl; auto.
  rewrite length_app, IH, Hrow. reflexivity.
Qed.

(** X17.  The entries of a matrix of mobjects that are pairwise different,
    with rows of [n_cols] entries, are its rows one after the other: there
    are [n_rows * n_cols] of them and the entry of row [i] and column [j] is
    the member of index [i * n_cols + j]. *)
Theorem get_entries_row_major {M : Type} (VGroup : list M -> list M) (d : M)
  (n_cols : nat) (mob_matrix : list (list M)) :
  keeps_distinct VGroup ->
  NoDup (concat mob_matrix) ->
  Forall (fun row => length row = n_cols) mob_matrix ->
  length (get_entries VGroup mob_matrix) = (length mob_matrix * n_cols)%nat /\
  forall i j, (i < length mob_matrix)%nat -> (j < n_cols)%nat ->
    nth (i * n_cols + j) (get_entries VGroup mob_matrix) d
    = nth j (nth i mob_matrix []) d.
Proof.
  intros Hk Hnd Hall. unfold get_entries. rewrite (Hk _ Hnd). split.
  - apply length_concat_rows, Hall.
  - intros i j Hi Hj. apply nth_concat_row; assumption.
Qed.

Lemma get_entries_row_major_witness :
  keeps_distinct (nodup Nat.eq_dec) /\
  NoDup (concat [[2; 3]%nat; [1; 5]%nat]) /\
  Forall (fun row => length row = 2%nat) [[2; 3]%nat; [1; 5]%nat] /\
  length (get_entries (nodup Nat.eq_dec) [[2; 3]%nat; [1; 5]%nat])
  = (length [[2; 3]%nat; [1; 5]%nat] * 2)%nat /\
  forall i j, (i < length [[2; 3]%nat; [1; 5]%nat])%nat -> (j < 2)%nat ->
    nth (i * 2 + j) (get_entries (nodup Nat.eq_dec) [[2; 3]%nat; [1; 5]%nat])
      0%nat
    = nth j (nth i [[2; 3]%nat; [1; 5]%nat] []) 0%nat.
Proof.
  assert (Hk : keeps_distinct (nodup Nat.eq_dec))
    by (intros members Hm; apply nodup_fixed_point, Hm).
  assert (Hnd : NoDup (concat [[2; 3]%nat; [1; 5]%nat]))
    by (simpl; distinct_numbers).
  assert (H : Forall (fun row => length row = 2%nat) [[2; 3]%nat; [1; 5]%nat])
    by (repeat constructor).
  split; [exact Hk|]. split; [exact Hnd|]. split; [exact H|].
  apply (get_entries_row_major (nodup Nat.eq_dec) 0%nat 2%nat
           [[2; 3]%nat; [1; 5]%nat] Hk Hnd H).
Defined.

Lemma independent_combination (DOWN RIGHT : Point3D) (a b : R) :
  cross DOWN RIGHT <> ORIGIN ->
  vadd (vscale a DOWN) (vscale b RIGHT) = ORIGIN ->
  a = 0 /\ b = 0.
Proof.
  intros Hind H. destruct DOWN as [d1 d2 d3], RIGHT as [r1 r2 r3].
  unfold vadd, vscale, cross, ORIGIN in *. cbn [px py pz] in *.
  injection H as H1 H2 H3.
  assert (Ha1 : a * (d2 * r3 - d3 * r2) = 0) by nsatz.
  assert (Ha2 : a * (d3 * r1 - d1 * r3) = 0) by nsatz.
  assert (Ha3 : a * (d1 * r2 - d2 * r1) = 0) by nsatz.
  assert (Hb1 : b * (d2 * r3 - d3 * r2) = 0) by nsatz.
  assert (Hb2 : b * (d3 * r1 - d1 * r3) = 0) by nsatz.
  assert (Hb3 : b * (d1 * r2 - d2 * r1) = 0) by nsatz.
  destruct (Req_dec (d2 * r3 - d3 * r2) 0) as [E1|N1].
  - destruct (Req_dec (d3 * r1 - d1 * r3) 0) as [E2|N2].
    + destruct (Req_dec (d1 * r2 - d2 * r1) 0) as [E3|N3].
      * exfalso. apply Hind. rewrite E1, E2, E3. reflexivity.
      * split; [apply Rmult_integral in Ha3 | apply Rmult_integral in Hb3];
          tauto.
    + split; [apply Rmult_integral in Ha2 | apply Rmult_integral in Hb2];
        tauto.
  - split; [apply Rmult_integral in Ha1 | apply Rmult_integral in Hb1]; tauto.
Qed.

(** X19.  [_organize_mob_matrix] gives different entries different target
    points: when neither buffer is 0 and the directions [DOWN] and [RIGHT]
    are not parallel, two entries with the same target are in the same row
    and the same column. *)
Theorem entry_targets_distinct (v_buff h_buff : R) (DOWN RIGHT : Point3D)
  (i j i' j' : nat) :
  v_buff <> 0 -> h_buff <> 0 -> cross DOWN RIGHT <> ORIGIN ->
  entry_target v_buff h_buff DOWN RIGHT i j
  = entry_target v_buff h_buff DOWN RIGHT i' j' ->
  i = i' /\ j = j'.
Proof.
  intros Hv Hh Hind H.
  destruct (independent_combination DOWN RIGHT
              ((INR i - INR i') * v_buff) ((INR j - INR j') * h_buff) Hind)
    as [Ha Hb].
  - unfold entry_target in H. destruct DOWN as [d1 d2 d3], RIGHT as [r1 r2 r3].
    unfold vadd, vscale, ORIGIN in *. cbn [px py pz] in *.
    injection H as H1 H2 H3. f_equal; nsatz.
  - apply Rmult_integral in Ha, Hb.
    split; apply INR_eq; [destruct Ha | destruct Hb]; lra || contradiction.
Qed.

Lemma entry_targets_distinct_witness :
  1.3 <> 0 /\ 0.8 <> 0 /\ cross (mkP 0 (-1) 0) (mkP 1 0 0) <> ORIGIN /\
  entry_target 1.3 0.8 (mkP 0 (-1) 0) (mkP 1 0 0) 1 2
  = entry_target 1.3 0.8 (mkP 0 (-1) 0) (mkP 1 0 0) 1 2 /\
  1%nat = 1%nat /\ 2%nat = 2%nat.
Proof.
  assert (H1 : 1.3 <> 0) by lra.
  assert (H2 : 0.8 <> 0) by lra.
  assert (H3 : cross (mkP 0 (-1) 0) (mkP 1 0 0) <> ORIGIN).
  { unfold cross, ORIGIN. cbn [px py pz]. intros E. injection E as _ _ E. lra. }
  split; [exact H1|]. split; [exact H2|]. split; [exact H3|].
  split; [reflexivity|].
  apply (entry_targets_distinct 1.3 0.8 (mkP 0 (-1) 0) (mkP 1 0 0) 1 2 1 2
           H1 H2 H3 eq_refl).
Defined.
